(** * FlamApp: the synchronisation core of the collaborative canvas

    A shallow embedding of the classes that carry the real-time
    synchronisation of the collaborative drawing canvas:

    - [DrawingState] (server/drawing-state.js): the versioned operation log;
    - [Server] (the class [CollaborativeCanvasServer]): the client registry,
      the message dispatcher, the undo handler and the broadcast router;
    - [Transport] (the class [WebSocketClient]): the reconnecting client
      transport with its outbound queue;
    - [Canvas] and [App] (the classes [DrawingCanvas] and
      [CollaborativeDrawingApp]): strokes, the local history, undo and redo.

    JavaScript objects are passed by reference.  Where the source mutates an
    object it was handed ([DrawingState.addOperation] writes the version into
    its argument), the object lives in an explicit heap and the log holds
    references to it.  Where the source builds a fresh object literal per call
    (the server's handlers), the object is a value.

    Effects are explicit.  What a handler sends is returned as a list of
    deliveries (server) or recorded in the state (transport); the clock and
    the random generator are inputs; timers and socket events are events of
    a step function.  [JSON.stringify] is a parameter.

    Numbers.  Versions and timestamps are integers, and arrays are lists:
    the counters stay far below 2^53, where JavaScript numbers are exact.
    The reconnect delay takes fractional values and is a rational.  It is
    the number of the source as long as no multiplication by 1.5 rounds,
    which from the base delay 1000 is so for the first 29 reconnect timers
    ([backoff_binary64]); the values computed below lie within them. *)

From Stdlib Require Import QArith Lqa.
From Stdlib Require Qpower.
From stdpp Require Import gmap strings list fin_maps pretty functions sorting.

#[local] Set Warnings "-register-all".
#[local] Open Scope Z_scope.

(** ** JSON values and plain objects *)

(** What [JSON.parse] produces.  Numbers that matter here (versions,
    timestamps) are integers; [undefined] is the absence of a property, that
    is [None] at a lookup. *)
Inductive json : Type :=
  | JNull
  | JBool (b : bool)
  | JNum (n : Z)
  | JStr (s : string)
  | JArr (l : list json)
  | JObj (o : gmap string json).

(** A plain object: its own enumerable properties. *)
Abbreviation obj := (gmap string json).

(** ** Arrays *)

(** [Array.prototype.slice(-n)]: the last [n] elements, or all of them. *)
Definition slice_last {A : Type} (n : nat) (l : list A) : list A :=
  drop (length l - n) l.

(** [Array.prototype.pop]: the last element and what is left, or [None] on
    the empty array, which stays as it is. *)
Definition pop {A : Type} (l : list A) : option (A * list A) :=
  match reverse l with
  | [] => None
  | x :: r => Some (x, reverse r)
  end.

(** ** The operation log: class [DrawingState] *)

Module DrawingState.

(** Object identity.  [addOperation] mutates the object it is given and
    stores that same object, so the log holds references. *)
Abbreviation loc := nat.

(** An operation object, with the three properties the class reads or
    writes; [None] is a property that is not set. *)
Record operation : Type := {
  operationId : option string;
  userId : option string;
  version : option Z;
  other : obj
}.

Definition set_version (v : Z) (o : operation) : operation :=
  {| operationId := operationId o; userId := userId o;
     version := Some v; other := other o |}.

(** The fields of a [DrawingState] instance, together with the heap its
    references point into.  The field [this.version] is [this_version], since [version]
    names the property of an operation. *)
Record state : Type := {
  heap : loc → operation;
  operations : list loc;
  undoStack : list loc;
  redoStack : list loc;
  this_version : Z
}.

(** [constructor()] *)
Definition constructor (h : loc → operation) : state :=
  {| heap := h; operations := []; undoStack := []; redoStack := [];
     this_version := 0 |}.

(** [addOperation(operation)]:
    [operation.version = ++this.version; this.operations.push(operation);
     this.undoStack.push(operation); this.redoStack = []; return operation] *)
Definition addOperation (operation : loc) (s : state) : loc * state :=
  let v := this_version s + 1 in
  (operation,
   {| heap := <[operation := set_version v (heap s operation)]> (heap s);
      operations := operations s ++ [operation];
      undoStack := undoStack s ++ [operation];
      redoStack := [];
      this_version := v |}).

(** [op.version > version], for a numeric [version]; a version that is not
    set compares false. *)
Definition version_gt (v : Z) (o : operation) : Prop :=
  match version o with
  | Some n => v < n
  | None => False
  end.

#[global] Instance version_gt_dec v o : Decision (version_gt v o).
Proof. unfold version_gt. destruct (version o); apply _. Defined.

(** [getOperationsAfter(version)]:
    [this.operations.filter(op => op.version > version)] *)
Definition getOperationsAfter (v : Z) (s : state) : list loc :=
  filter (λ r, version_gt v (heap s r)) (operations s).

(** The loop of [undo]: [for (let i = length - 1; i >= 0; i--)], stopping at
    the first [i] with [this.operations[i].userId === userId].  The argument
    [k] is [i + 1]. *)
Fixpoint find_last (h : loc → operation) (u : string) (ops : list loc)
    (k : nat) : option nat :=
  match k with
  | O => None
  | S i =>
      match ops !! i with
      | Some r =>
          if decide (userId (h r) = Some u) then Some i
          else find_last h u ops i
      | None => find_last h u ops i
      end
  end.

(** [undo(userId)]: on a hit at [i], [this.operations.splice(i, 1)], the
    undo stack loses every entry with the same [operationId], and the
    operation is returned; otherwise [null]. *)
Definition undo (u : string) (s : state) : option loc * state :=
  match find_last (heap s) u (operations s) (length (operations s)) with
  | Some i =>
      match operations s !! i with
      | Some r =>
          (Some r,
           {| heap := heap s;
              operations := delete i (operations s);
              undoStack :=
                filter (λ r', operationId (heap s r') ≠ operationId (heap s r))
                       (undoStack s);
              redoStack := redoStack s;
              this_version := this_version s |})
      | None => (None, s)
      end
  | None => (None, s)
  end.

(** [redo(userId)] is a stub that returns [null]. *)
Definition redo (u : string) (s : state) : option loc * state := (None, s).

(** [getState()] *)
Definition getState (s : state) : list loc * Z := (operations s, this_version s).

(** A sequence of appends, in order. *)
Definition appendAll (rs : list loc) (s : state) : state :=
  foldl (λ s r, (addOperation r s).2) s rs.

(** The version an entry of the log currently carries, and the versions
    along [this.operations]. *)
Definition version_of (s : state) (r : loc) : option Z := version (heap s r).

Definition versions (s : state) : list (option Z) :=
  version_of s <$> operations s.

(** Every entry carries a version, and along the log the versions increase
    strictly (so no two entries share one). *)
Definition strictly_increasing (s : state) : Prop :=
  ∃ vs : list Z,
    versions s = Some <$> vs ∧ StronglySorted Z.lt vs ∧ NoDup vs.

(** [getOperationsAfter(v)] is the part of the log behind some point, the
    entries before that point have a version of at most [v], and the entries
    returned have a version above [v]. *)
Definition after_exact (v : Z) (s : state) : Prop :=
  ∃ before : list loc,
    operations s = before ++ getOperationsAfter v s ∧
    Forall (λ r, ∃ n, version_of s r = Some n ∧ n ≤ v) before ∧
    Forall (λ r, ∃ n, version_of s r = Some n ∧ v < n)
           (getOperationsAfter v s).

(** The log invariant of the specification, for the log obtained from an
    empty one by appending the objects [rs] in order. *)
Definition log_invariant (h : loc → operation) (rs : list loc) : Prop :=
  let s := appendAll rs (constructor h) in
  strictly_increasing s ∧ ∀ v, after_exact v s.

(** The operations handed to the log are new ones: each object has no
    version yet when it is appended. *)
Fixpoint unversioned_at_append (rs : list loc) (s : state) : Prop :=
  match rs with
  | [] => True
  | r :: rs' =>
      version (heap s r) = None ∧
      unversioned_at_append rs' (addOperation r s).2
  end.

(** The author [u] has an entry in the log. *)
Definition authored (u : string) (s : state) : Prop :=
  Exists (λ r, userId (heap s r) = Some u) (operations s).

(** The objects of the examples: object [r] has the operation id ["op<r>"]
    and was drawn by ["alice"] when [r] is even, by ["bob"] otherwise. *)
Definition sample_heap : loc → operation := λ r,
  {| operationId := Some ("op" +:+ pretty r);
     userId := Some (if Nat.even r then "alice" else "bob");
     version := None; other := ∅ |}.

(** A call of one of the two methods that change the log. *)
Inductive call : Type :=
  | Append (r : loc)       (* [addOperation(r)] *)
  | Undo (u : string).     (* [undo(u)] *)

Definition apply_call (c : call) (s : state) : state :=
  match c with
  | Append r => (addOperation r s).2
  | Undo u => (undo u s).2
  end.

(** A sequence of calls, in order. *)
Definition run_calls (cs : list call) (s : state) : state :=
  foldl (λ s c, apply_call c s) s cs.

(** The objects handed to [addOperation] along a sequence of calls. *)
Definition appended (cs : list call) : list loc :=
  omap (λ c, match c with Append r => Some r | Undo _ => None end) cs.

(** Every entry carries a version between 1 and the counter. *)
Definition versions_in_range (s : state) : Prop :=
  Forall (λ r, ∃ n, version_of s r = Some n ∧ 1 ≤ n ≤ this_version s)
         (operations s).

End DrawingState.

(** ** Sockets *)

(** [WebSocket.readyState] *)
Inductive readyState : Type := CONNECTING | OPEN | CLOSING | CLOSED.

#[global] Instance readyState_eq_dec : EqDecision readyState.
Proof. solve_decision. Defined.

(** ** The server: class [CollaborativeCanvasServer] *)

Module Server.

(** An entry of [this.clients].  The socket is represented by the one thing
    the server reads from it, its [readyState]; what is written to it with
    [ws.send] is recorded as a delivery. *)
Record client : Type := {
  ws : readyState;
  userId : string;
  color : string;
  cursor : option json;
  lastPing : Z
}.

Definition set_cursor (d : option json) (c : client) : client :=
  {| ws := ws c; userId := userId c; color := color c; cursor := d;
     lastPing := lastPing c |}.

(** [this.clients] is a [Map]: keys are unique and iteration follows
    insertion order. *)
Abbreviation registry := (list (string * client)).

(** [Map.prototype.get] *)
Fixpoint get (k : string) (m : registry) : option client :=
  match m with
  | [] => None
  | (k', c) :: m' => if decide (k' = k) then Some c else get k m'
  end.

(** Assignment to a property of the object stored under [k]: the entry is
    changed where it stands. *)
Fixpoint update (k : string) (f : client → client) (m : registry) : registry :=
  match m with
  | [] => []
  | (k', c) :: m' =>
      if decide (k' = k) then (k', f c) :: m' else (k', c) :: update k f m'
  end.

(** The server's fields: the registry and the global operation log. *)
Record state : Type := {
  clients : registry;
  operations : list obj
}.

(** The readings of the clock and of the random generator that one handler
    consumes. *)
Record env : Type := {
  now : Z;        (* [Date.now()] of the [timestamp] property *)
  idNow : Z;      (* [Date.now()] inside [generateOperationId] *)
  rnd : string    (* [Math.random().toString(36).substr(2, 9)] *)
}.

(** [generateOperationId()]: ['op_' + Date.now() + '_' + <random>] *)
Definition generateOperationId (e : env) : string :=
  "op_" +:+ pretty (idNow e) +:+ "_" +:+ rnd e.

(** One [ws.send(data)]: the recipient's key and the text. *)
Abbreviation delivery := (string * string)%type.

(** Reading a property of a parsed message.  [None] at the outside is the
    [TypeError] of reading a property of [null]; [Some None] is
    [undefined]. *)
Definition prop (k : string) (v : json) : option (option json) :=
  match v with
  | JNull => None
  | JObj o => Some (o !! k)
  | _ => Some None
  end.

(** The own enumerable properties that [{...v}] copies. *)
Definition spread (v : option json) : obj :=
  match v with
  | Some (JObj o) => o
  | Some (JArr l) => list_to_map (imap (λ i x, (pretty i, x)) l)
  | Some (JStr s) =>
      list_to_map
        (imap (λ i a, (pretty i, JStr (String a EmptyString)))
              (String.list_ascii_of_string s))
  | _ => ∅
  end.

(** A property whose value may be [undefined]; [JSON.stringify] drops such a
    property, so it is left out. *)
Definition set_opt (k : string) (v : option json) (o : obj) : obj :=
  match v with
  | Some x => <[k := x]> o
  | None => o
  end.

(** [v === t] for a string [t]: strict equality with a string holds for
    that very string only. *)
Definition is_string (t : string) (v : option json) : bool :=
  match v with
  | Some (JStr s) => bool_decide (s = t)
  | _ => false
  end.

(** The loop of the undo handler, [for (let i = length - 1; i >= 0; i--)]:
    the last index whose entry has [userId === u]; [k] is [i + 1]. *)
Fixpoint find_last (u : string) (ops : list obj) (k : nat) : option nat :=
  match k with
  | O => None
  | S i =>
      match ops !! i with
      | Some o =>
          if is_string u (o !! "userId") then Some i
          else find_last u ops i
      | None => find_last u ops i
      end
  end.

Section WithSerializer.

(** [JSON.stringify] *)
Variable JSON_stringify : json → string.

(** The body of the loop of [broadcast] over [this.clients.entries()]. *)
Fixpoint send_each (data : string) (excludeUserId : option string)
    (m : registry) : list delivery :=
  match m with
  | [] => []
  | (k, c) :: m' =>
      if decide (Some k ≠ excludeUserId ∧ ws c = OPEN)
      then (k, data) :: send_each data excludeUserId m'
      else send_each data excludeUserId m'
  end.

(** [broadcast(message, excludeUserId = null)]: the message is serialised
    once and sent to every entry whose key is not the excluded one and whose
    socket is open. *)
Definition broadcast (message : obj) (excludeUserId : option string)
    (s : state) : list delivery :=
  send_each (JSON_stringify (JObj message)) excludeUserId (clients s).

(** [handleUndo(userId)] *)
Definition handleUndo (e : env) (u : string) (s : state)
    : state * list delivery :=
  match find_last u (operations s) (length (operations s)) with
  | Some i =>
      match operations s !! i with
      | Some undoneOp =>
          let undoOp : obj :=
            set_opt "targetOperationId" (undoneOp !! "operationId")
              (<["type" := JStr "undo"]>
              (<["userId" := JStr u]>
              (<["timestamp" := JNum (now e)]>
              (<["operationId" := JStr (generateOperationId e)]> ∅)))) in
          let s' := {| clients := clients s;
                       operations := operations s ++ [undoOp] |} in
          (s', broadcast (<["type" := JStr "undo"]>
                         (<["data" := JObj undoOp]> ∅)) None s')
      | None => (s, [])
      end
  | None => (s, [])
  end.

(** [handleMessage(userId, message)].  The result is [None] when the handler
    throws, which it does only on reading [message.type] of [null]. *)
Definition handleMessage (e : env) (u : string) (message : json) (s : state)
    : option (state * list delivery) :=
  match get u (clients s) with
  | None => Some (s, [])
  | Some _ =>
      match prop "type" message with
      | None => None
      | Some ty =>
          if is_string "draw" ty then
            let operation : obj :=
              <["operationId" := JStr (generateOperationId e)]>
              (<["timestamp" := JNum (now e)]>
              (<["userId" := JStr u]>
              (spread (default None (prop "data" message))))) in
            let s' := {| clients := clients s;
                         operations := operations s ++ [operation] |} in
            Some (s', broadcast (<["type" := JStr "draw"]>
                                (<["data" := JObj operation]> ∅)) (Some u) s')
          else if is_string "cursor" ty then
            let d := default None (prop "data" message) in
            let s' := {| clients := update u (set_cursor d) (clients s);
                         operations := operations s |} in
            Some (s', broadcast (set_opt "data" d
                                (<["type" := JStr "cursor"]>
                                (<["userId" := JStr u]> ∅))) (Some u) s')
          else if is_string "clear" ty then
            let clearOp : obj :=
              <["type" := JStr "clear"]>
              (<["userId" := JStr u]>
              (<["timestamp" := JNum (now e)]>
              (<["operationId" := JStr (generateOperationId e)]> ∅))) in
            let s' := {| clients := clients s;
                         operations := operations s ++ [clearOp] |} in
            Some (s', broadcast (<["type" := JStr "clear"]>
                                (<["data" := JObj clearOp]> ∅)) (Some u) s')
          else if is_string "undo" ty then
            Some (handleUndo e u s)
          else Some (s, [])
      end
  end.

(** The listener [ws.on('message', ...)] of the connection [u]: a text that
    does not parse ([None]) and a handler that throws are caught and logged. *)
Definition on_message (e : env) (u : string) (parsed : option json)
    (s : state) : state * list delivery :=
  match parsed with
  | None => (s, [])
  | Some message => default (s, []) (handleMessage e u message s)
  end.

End WithSerializer.

(** The author [u] has an entry in the server's log. *)
Definition authored (u : string) (s : state) : Prop :=
  Exists (λ o, is_string u (o !! "userId") = true) (operations s).

(** The messages of the wire protocol that the properties below mention. *)
Definition draw_message (data : obj) : json :=
  JObj (<["type" := JStr "draw"]> (<["data" := JObj data]> ∅)).

Definition undo_message : json := JObj (<["type" := JStr "undo"]> ∅).

Definition ping_message (timestamp : Z) : json :=
  JObj (<["type" := JStr "ping"]> (<["timestamp" := JNum timestamp]> ∅)).

(** Sample data: two open connections and one closed one; a stroke as a
    client sends it, here with an author and a version of the client's own
    choosing. *)
Definition sample_client (u : string) (r : readyState) : client :=
  {| ws := r; userId := u; color := "#FF6B6B"; cursor := None; lastPing := 0 |}.

Definition sample_clients : registry :=
  [("user_a", sample_client "user_a" OPEN);
   ("user_b", sample_client "user_b" OPEN);
   ("user_c", sample_client "user_c" CLOSED)].

Definition sample_env : env := {| now := 1700; idNow := 1701; rnd := "k3x9q0zab" |}.

Definition sample_stroke : obj :=
  <["color" := JStr "#000000"]> (<["width" := JNum 5]> ∅).

Definition forged_stroke : obj :=
  <["userId" := JStr "user_b"]> (<["version" := JNum 99]> sample_stroke).

Definition stored_stroke : obj :=
  <["operationId" := JStr "op_1600_aaaaaaaaa"]>
  (<["timestamp" := JNum 1600]> (<["userId" := JStr "user_a"]> sample_stroke)).

(** The server before the first stroke, and after one stroke of [user_a]. *)
Definition sample_empty : state :=
  {| clients := sample_clients; operations := [] |}.

Definition sample_state : state :=
  {| clients := sample_clients; operations := [stored_stroke] |}.

(** *** The life cycle of a connection *)

(** [Map.prototype.set]: an existing key keeps its place, a new key goes to
    the end. *)
Fixpoint Map_set (k : string) (c : client) (m : registry) : registry :=
  match m with
  | [] => [(k, c)]
  | (k', c') :: m' =>
      if decide (k' = k) then (k, c) :: m' else (k', c') :: Map_set k c m'
  end.

(** [Map.prototype.delete]; keys are unique, so this takes out the entry
    of [k]. *)
Definition Map_delete (k : string) (m : registry) : registry :=
  filter (λ kc, kc.1 ≠ k) m.

Definition set_lastPing (t : Z) (c : client) : client :=
  {| ws := ws c; userId := userId c; color := color c; cursor := cursor c;
     lastPing := t |}.

(** [{ x: 0, y: 0 }] *)
Definition origin : json := JObj (<["x" := JNum 0]> (<["y" := JNum 0]> ∅)).

(** [c => ({ id: c.userId, color: c.color, cursor: c.cursor })] *)
Definition user_entry (c : client) : json :=
  JObj (set_opt "cursor" (cursor c)
       (<["id" := JStr (userId c)]> (<["color" := JStr (color c)]> ∅))).

Definition welcome_message (u col : string) (m : registry) : obj :=
  <["type" := JStr "welcome"]>
  (<["userId" := JStr u]>
  (<["color" := JStr col]>
  (<["users" := JArr (user_entry <$> m.*2)]> ∅))).

Definition user_joined_message (u col : string) : obj :=
  <["type" := JStr "user-joined"]>
  (<["userId" := JStr u]> (<["color" := JStr col]> ∅)).

Definition user_left_message (u : string) : obj :=
  <["type" := JStr "user-left"]> (<["userId" := JStr u]> ∅).

Definition history_message (ops : list obj) : obj :=
  <["type" := JStr "history"]>
  (<["operations" := JArr (JObj <$> ops)]> ∅).

(** The entry stored for a new connection; its socket is open. *)
Definition new_client (t : Z) (u col : string) : client :=
  {| ws := OPEN; userId := u; color := col; cursor := Some origin;
     lastPing := t |}.

(** The test of the cleanup interval: [now - client.lastPing > 60000]. *)
Definition stale (t : Z) (c : client) : Prop := 60000 < t - lastPing c.

#[global] Instance stale_dec t c : Decision (stale t c).
Proof. unfold stale. apply _. Defined.

Section Lifecycle.

Variable JSON_stringify : json → string.

(** The listener of ['connection'], with the results of [generateUserId()],
    [generateRandomColor()] and [Date.now()] as [u], [col] and [t]: the
    client is stored, the welcome goes to the new socket, the others are
    told, and a log that is not empty is sent, its last 100 entries at
    most. *)
Definition on_connection (t : Z) (u col : string) (s : state)
    : state * list delivery :=
  let s' := {| clients := Map_set u (new_client t u col) (clients s);
               operations := operations s |} in
  (s',
   [(u, JSON_stringify (JObj (welcome_message u col (clients s'))))]
   ++ broadcast JSON_stringify (user_joined_message u col) (Some u) s'
   ++ (if decide (0 < length (operations s'))%nat
       then [(u, JSON_stringify
                   (JObj (history_message (slice_last 100 (operations s')))))]
       else [])).

(** The listener of ['close'] of the connection [u]. *)
Definition on_close (u : string) (s : state) : state * list delivery :=
  let s' := {| clients := Map_delete u (clients s);
               operations := operations s |} in
  (s', broadcast JSON_stringify (user_left_message u) None s').

(** The listener of ['pong'] of the connection [u], at time [t]. *)
Definition on_pong (t : Z) (u : string) (s : state) : state :=
  match get u (clients s) with
  | Some _ => {| clients := update u (set_lastPing t) (clients s);
                 operations := operations s |}
  | None => s
  end.

(** The loop of the cleanup interval over [this.clients.entries()].  The
    loop deletes only the entry it stands on, so it visits the entries the
    map had when it started. *)
Fixpoint sweep_loop (t : Z) (entries : registry) (s : state)
    : state * list delivery :=
  match entries with
  | [] => (s, [])
  | (u, c) :: rest =>
      if decide (stale t c) then
        let s' := {| clients := Map_delete u (clients s);
                     operations := operations s |} in
        let sent := broadcast JSON_stringify (user_left_message u) None s' in
        let '(s'', sent') := sweep_loop t rest s' in
        (s'', sent ++ sent')
      else sweep_loop t rest s
  end.

(** The callback of the cleanup interval, at time [t].  The call
    [client.ws.terminate()] acts on a socket whose entry leaves the registry
    in the same step; the ['close'] event that follows it is a call of
    [on_close] of its own. *)
Definition sweep (t : Z) (s : state) : state * list delivery :=
  sweep_loop t (clients s) s.

End Lifecycle.

(** More messages of the wire protocol. *)
Definition cursor_message (d : json) : json :=
  JObj (<["type" := JStr "cursor"]> (<["data" := d]> ∅)).

(** A message type that has a case in the dispatcher. *)
Definition recognised (ty : option json) : bool :=
  is_string "draw" ty || is_string "cursor" ty || is_string "clear" ty
  || is_string "undo" ty.

(** The keys of the registry with the state of their sockets, which is all
    that [broadcast] reads. *)
Definition sockets (m : registry) : list (string * readyState) :=
  (λ kc, (kc.1, ws kc.2)) <$> m.

End Server.

(** ** The client transport: class [WebSocketClient] *)

Module Transport.

(** The fields of a [WebSocketClient], followed by what the instance has done
    to its surroundings.  [this.ws] is [null] or the socket created by the
    last [connect()], represented by its [readyState].  [reconnectDelay] is a
    JavaScript number; it is kept as a fraction in lowest terms.  The
    callbacks [onConnect] and [onDisconnect] are never set in this
    repository and [onMessage] does not touch the transport, so they are
    left out, as is the promise that [connect()] returns. *)
Record client : Type := {
  ws : option readyState;
  reconnectAttempts : nat;
  maxReconnectAttempts : nat;
  reconnectDelay : Q;
  latency : option Z;
  messageQueue : list json;
  isConnected : bool;
  (* surroundings *)
  sent : list string;     (* the texts handed to [this.ws.send], in order *)
  scheduled : list Q;     (* the delays handed to [setTimeout], in order *)
  pending : nat;          (* reconnect timers that have not fired yet *)
  sockets : nat           (* [new WebSocket(...)] calls so far *)
}.

(** [constructor()] *)
Definition constructor : client :=
  {| ws := None; reconnectAttempts := 0; maxReconnectAttempts := 5;
     reconnectDelay := 1000%Q; latency := None; messageQueue := [];
     isConnected := false;
     sent := []; scheduled := []; pending := 0; sockets := 0 |}.

Definition set_ws (r : option readyState) (c : client) : client :=
  {| ws := r; reconnectAttempts := reconnectAttempts c;
     maxReconnectAttempts := maxReconnectAttempts c;
     reconnectDelay := reconnectDelay c; latency := latency c;
     messageQueue := messageQueue c; isConnected := isConnected c;
     sent := sent c; scheduled := scheduled c; pending := pending c;
     sockets := sockets c |}.

Definition set_isConnected (b : bool) (c : client) : client :=
  {| ws := ws c; reconnectAttempts := reconnectAttempts c;
     maxReconnectAttempts := maxReconnectAttempts c;
     reconnectDelay := reconnectDelay c; latency := latency c;
     messageQueue := messageQueue c; isConnected := b;
     sent := sent c; scheduled := scheduled c; pending := pending c;
     sockets := sockets c |}.

Definition set_messageQueue (q : list json) (c : client) : client :=
  {| ws := ws c; reconnectAttempts := reconnectAttempts c;
     maxReconnectAttempts := maxReconnectAttempts c;
     reconnectDelay := reconnectDelay c; latency := latency c;
     messageQueue := q; isConnected := isConnected c;
     sent := sent c; scheduled := scheduled c; pending := pending c;
     sockets := sockets c |}.

Definition set_backoff (n : nat) (d : Q) (c : client) : client :=
  {| ws := ws c; reconnectAttempts := n;
     maxReconnectAttempts := maxReconnectAttempts c;
     reconnectDelay := d; latency := latency c;
     messageQueue := messageQueue c; isConnected := isConnected c;
     sent := sent c; scheduled := scheduled c; pending := pending c;
     sockets := sockets c |}.

Definition set_latency (l : option Z) (c : client) : client :=
  {| ws := ws c; reconnectAttempts := reconnectAttempts c;
     maxReconnectAttempts := maxReconnectAttempts c;
     reconnectDelay := reconnectDelay c; latency := l;
     messageQueue := messageQueue c; isConnected := isConnected c;
     sent := sent c; scheduled := scheduled c; pending := pending c;
     sockets := sockets c |}.

Definition set_sent (l : list string) (c : client) : client :=
  {| ws := ws c; reconnectAttempts := reconnectAttempts c;
     maxReconnectAttempts := maxReconnectAttempts c;
     reconnectDelay := reconnectDelay c; latency := latency c;
     messageQueue := messageQueue c; isConnected := isConnected c;
     sent := l; scheduled := scheduled c; pending := pending c;
     sockets := sockets c |}.

Definition set_timers (sch : list Q) (p : nat) (c : client) : client :=
  {| ws := ws c; reconnectAttempts := reconnectAttempts c;
     maxReconnectAttempts := maxReconnectAttempts c;
     reconnectDelay := reconnectDelay c; latency := latency c;
     messageQueue := messageQueue c; isConnected := isConnected c;
     sent := sent c; scheduled := sch; pending := p;
     sockets := sockets c |}.

Definition set_sockets (n : nat) (c : client) : client :=
  {| ws := ws c; reconnectAttempts := reconnectAttempts c;
     maxReconnectAttempts := maxReconnectAttempts c;
     reconnectDelay := reconnectDelay c; latency := latency c;
     messageQueue := messageQueue c; isConnected := isConnected c;
     sent := sent c; scheduled := scheduled c; pending := pending c;
     sockets := n |}.

(** The test of [send] and of the ping interval:
    [this.isConnected && this.ws.readyState === WebSocket.OPEN].
    [isConnected] is set only by the [onopen] handler of a socket, hence
    never while [this.ws] is [null]. *)
Definition connected (c : client) : bool :=
  isConnected c && bool_decide (ws c = Some OPEN).

(** What the surroundings may do to the transport.  The socket events are
    those of the socket in [this.ws]: a socket is created by [connect()] only,
    and [connect()] runs at start-up and from the reconnect timer of a socket
    that has closed, so no two sockets are alive together. *)
Inductive event : Type :=
  | EvOpen                 (* the socket opened: [onopen] *)
  | EvClose                (* the socket closed or failed to open: [onclose] *)
  | EvTimer                (* a reconnect timer fires *)
  | EvSend (m : json)      (* the application calls [send(m)] *)
  | EvDisconnect           (* the application calls [disconnect()] *)
  | EvPing (t : Z)         (* the ping interval fires at time [t] *)
  | EvPong (t echoed : Z). (* a [pong] with a numeric timestamp arrives at [t] *)

Section WithSerializer.

(** [JSON.stringify] *)
Variable JSON_stringify : json → string.

(** [send(message)] *)
Definition send (message : json) (c : client) : client :=
  if connected c
  then set_sent (sent c ++ [JSON_stringify message]) c
  else set_messageQueue (messageQueue c ++ [message]) c.

(** [processMessageQueue()]:
    [while (queue.length > 0) { const m = queue.shift(); this.send(m); }].
    The loop need not end ([send] can put the message back), so it runs on
    fuel, one unit per iteration; [None] is a loop that has not ended. *)
Fixpoint processMessageQueue (fuel : nat) (c : client) : option client :=
  match messageQueue c with
  | [] => Some c
  | message :: q =>
      match fuel with
      | O => None
      | S fuel' => processMessageQueue fuel' (send message (set_messageQueue q c))
      end
  end.

(** [connect()]: a new socket, in state [CONNECTING], replaces [this.ws], and
    one more ping interval is started. *)
Definition connect (c : client) : client :=
  set_sockets (S (sockets c)) (set_ws (Some CONNECTING) c).

(** [this.ws.onopen] *)
Definition onopen (fuel : nat) (c : client) : option client :=
  processMessageQueue fuel
    (set_backoff 0 (reconnectDelay c) (set_isConnected true c)).

(** [this.ws.onclose]: the delay of the timer is the value of
    [this.reconnectDelay] when the timer is set. *)
Definition onclose (c : client) : client :=
  let c' := set_isConnected false c in
  if decide (reconnectAttempts c' < maxReconnectAttempts c')%nat
  then set_timers (scheduled c' ++ [reconnectDelay c']) (S (pending c')) c'
  else c'.

(** The callback of the reconnect timer:
    [this.reconnectAttempts++; this.reconnectDelay *= 1.5; this.connect()].
    The product is taken in the rationals.  It is the number the source
    computes as long as the product is a binary64 value, which from the
    delay 1000 of the constructor it is for the first 29 timers (see
    [binary64] below); what is stated about the delay stays within them. *)
Definition reconnect (c : client) : client :=
  connect
    (set_backoff (S (reconnectAttempts c))
                 (Qred (reconnectDelay c * (3 # 2))) c).

(** [WebSocket.prototype.close]: an open or opening socket starts closing. *)
Definition close (r : readyState) : readyState :=
  match r with
  | CONNECTING | OPEN => CLOSING
  | CLOSING | CLOSED => r
  end.

(** [disconnect()]: [if (this.ws) this.ws.close()] *)
Definition disconnect (c : client) : client :=
  match ws c with
  | Some r => set_ws (Some (close r)) c
  | None => c
  end.

(** The callback of the ping interval *)
Definition ping (t : Z) (c : client) : client :=
  if connected c
  then send (JObj (<["type" := JStr "ping"]> (<["timestamp" := JNum t]> ∅))) c
  else c.

(** The [pong] branch of [this.ws.onmessage]:
    [this.latency = Date.now() - message.timestamp] *)
Definition onpong (t echoed : Z) (c : client) : client :=
  set_latency (Some (t - echoed)) c.

(** One event.  The surroundings set the [readyState] of the socket before
    its handler runs, and remove a timer when it fires. *)
Definition step (fuel : nat) (ev : event) (c : client) : option client :=
  match ev with
  | EvOpen => onopen fuel (set_ws (Some OPEN) c)
  | EvClose => Some (onclose (set_ws (Some CLOSED) c))
  | EvTimer =>
      match pending c with
      | O => Some c
      | S p => Some (reconnect (set_timers (scheduled c) p c))
      end
  | EvSend m => Some (send m c)
  | EvDisconnect => Some (disconnect c)
  | EvPing t => Some (ping t c)
  | EvPong t echoed => Some (onpong t echoed c)
  end.

(** A sequence of events *)
Fixpoint run (fuel : nat) (tr : list event) (c : client) : option client :=
  match tr with
  | [] => Some c
  | ev :: tr' =>
      match step fuel ev c with
      | Some c' => run fuel tr' c'
      | None => None
      end
  end.

End WithSerializer.

(** The messages submitted along a trace, in order. *)
Definition sends (tr : list event) : list json :=
  omap (λ ev, match ev with EvSend m => Some m | _ => None end) tr.

Definition is_open (ev : event) : bool :=
  match ev with EvOpen => true | _ => false end.

(** [n] connection attempts in a row that fail: each socket closes without
    having opened, and the reconnect timer set by its [onclose] fires. *)
Definition failed_attempts (n : nat) : list event :=
  concat (replicate n [EvClose; EvTimer]).

(** [isConnected] is never set while [this.ws] is [null]; this is what makes
    the test in [send] safe. *)
Definition has_socket (c : client) : Prop :=
  isConnected c = true → is_Some (ws c).

(** The transport has given up: the attempts are used up, no timer is
    waiting, and it is disconnected. *)
Definition parked (c : client) : Prop :=
  (maxReconnectAttempts c ≤ reconnectAttempts c)%nat ∧
  pending c = 0%nat ∧ isConnected c = false.

(** The cancellation rule of the specification: whatever happens after
    [disconnect()], no socket is created any more. *)
Definition disconnect_is_final (stringify : json → string) (c : client)
    : Prop :=
  ∀ fuel tr c',
    run stringify fuel tr (disconnect c) = Some c' → sockets c' = sockets c.

(** A transport whose first socket is open, and one whose first socket has
    closed and whose reconnect timer is waiting. *)
Definition sample_connected : client :=
  set_isConnected true (set_ws (Some OPEN) (connect constructor)).

Definition sample_waiting : client :=
  set_timers [1000%Q] 1 (set_ws (Some CLOSED) (connect constructor)).

(** *** What the transport is given and what becomes of it *)

(** [{ type: 'ping', timestamp: t }] *)
Definition ping_message (t : Z) : json :=
  JObj (<["type" := JStr "ping"]> (<["timestamp" := JNum t]> ∅)).

(** The messages that reach [send] during one event: the application's
    message, or the ping of an interval that finds the transport connected. *)
Definition offered1 (ev : event) (c : client) : list json :=
  match ev with
  | EvSend m => [m]
  | EvPing t => if connected c then [ping_message t] else []
  | _ => []
  end.

(** The messages that reach [send] along a run, in order. *)
Fixpoint offered (stringify : json → string) (fuel : nat) (tr : list event)
    (c : client) : list json :=
  match tr with
  | [] => []
  | ev :: tr' =>
      offered1 ev c ++
      match step stringify fuel ev c with
      | Some c' => offered stringify fuel tr' c'
      | None => []
      end
  end.

(** Everything transmitted so far, followed by what waits in the queue. *)
Definition outbox (stringify : json → string) (c : client) : list string :=
  sent c ++ (stringify <$> messageQueue c).

(** Nothing waits while the transport is connected. *)
Definition flushed (c : client) : Prop :=
  connected c = true → messageQueue c = [].

(** The life cycle of a socket in the browser, as the transport meets it: a
    socket opens at most once, while it is connecting; it closes once; a
    timer fires only if one was set; the ping interval exists once
    [connect()] has run; a message arrives on an open socket. *)
Definition enabled (ev : event) (c : client) : Prop :=
  match ev with
  | EvOpen => ws c = Some CONNECTING
  | EvClose => ws c = Some CONNECTING ∨ ws c = Some OPEN ∨ ws c = Some CLOSING
  | EvTimer => (0 < pending c)%nat
  | EvSend _ | EvDisconnect => True
  | EvPing _ => (0 < sockets c)%nat
  | EvPong _ _ => ws c = Some OPEN
  end.

(** A run in which every event is enabled when it happens. *)
Fixpoint feasible (stringify : json → string) (fuel : nat) (tr : list event)
    (c : client) : Prop :=
  match tr with
  | [] => True
  | ev :: tr' =>
      enabled ev c ∧
      match step stringify fuel ev c with
      | Some c' => feasible stringify fuel tr' c'
      | None => True
      end
  end.

(** The number of reconnect timers that fire along a run: a timer event
    counts when a timer is waiting. *)
Fixpoint fired (stringify : json → string) (fuel : nat) (tr : list event)
    (c : client) : nat :=
  (match tr with
   | [] => 0
   | ev :: tr' =>
       match ev with
       | EvTimer => if decide (0 < pending c) then 1 else 0
       | _ => 0
       end +
       match step stringify fuel ev c with
       | Some c' => fired stringify fuel tr' c'
       | None => 0
       end
   end)%nat.

(** A finite value of the number type of the source (IEEE 754 binary64):
    [m * 2 ^ e] with [|m| < 2 ^ 53] and [-1074 <= e <= 971].  When the
    product of [this.reconnectDelay] and [1.5] is such a value, the
    multiplication of the source does not round, and [reconnect], which
    multiplies in the rationals, computes the very value of the source. *)
Definition binary64 (q : Q) : Prop :=
  ∃ m e : Z, Z.abs m < 2 ^ 53 ∧ -1074 ≤ e ≤ 971 ∧
             (q == inject_Z m * Qpower 2 e)%Q.

(** At most one reconnect is under way: a timer waits only while the socket
    is closed and attempts are left, and the attempts never exceed the
    maximum. *)
Definition orderly (c : client) : Prop :=
  (reconnectAttempts c ≤ maxReconnectAttempts c)%nat ∧
  (pending c ≤ 1)%nat ∧
  (pending c = 1%nat →
   ws c = Some CLOSED ∧
   (reconnectAttempts c < maxReconnectAttempts c)%nat).

End Transport.

(** ** The canvas: class [DrawingCanvas] *)

Module Canvas.

(** A point [{ x, y }], in whole pixels. *)
Abbreviation point := (Z * Z)%type.

(** What the 2D context has been asked to paint, call by call. *)
Inductive mark : Type :=
  | Cleared                 (* [clear()]: [clearRect] over the whole canvas *)
  | Began (p : point)       (* [startDrawing]: [beginPath], [moveTo] *)
  | Line (p : point)        (* [draw]: [lineTo], [stroke] *)
  | Closed                  (* [stopDrawing]: [closePath] *)
  | Path (points : list point) (color : string) (width : Z) (tool : string).
                            (* [drawPath]: one path, stroked once *)

(** The fields that the class reads back, and the marks made so far. *)
Record DrawingCanvas : Type := {
  currentPath : list point;
  isDrawing : bool;
  lastX : Z;
  lastY : Z;
  painted : list mark
}.

(** [startDrawing(x, y)] *)
Definition startDrawing (p : point) (c : DrawingCanvas) : DrawingCanvas :=
  {| currentPath := [p]; isDrawing := true; lastX := p.1; lastY := p.2;
     painted := painted c ++ [Began p] |}.

(** [draw(x, y)] *)
Definition draw (p : point) (c : DrawingCanvas) : DrawingCanvas :=
  if isDrawing c
  then {| currentPath := currentPath c ++ [p]; isDrawing := true;
          lastX := p.1; lastY := p.2; painted := painted c ++ [Line p] |}
  else c.

(** [stopDrawing()] *)
Definition stopDrawing (c : DrawingCanvas) : DrawingCanvas :=
  if isDrawing c
  then {| currentPath := currentPath c; isDrawing := false;
          lastX := lastX c; lastY := lastY c;
          painted := painted c ++ [Closed] |}
  else c.

(** [drawPath(points, color, width, tool)]: nothing is painted when
    [points] is missing or has fewer than 2 elements. *)
Definition drawPath (points : option (list point)) (color : string)
    (width : Z) (tool : string) (c : DrawingCanvas) : DrawingCanvas :=
  match points with
  | Some ps =>
      if decide (length ps < 2)%nat then c
      else {| currentPath := currentPath c; isDrawing := isDrawing c;
              lastX := lastX c; lastY := lastY c;
              painted := painted c ++ [Path ps color width tool] |}
  | None => c
  end.

(** [getCurrentPath()]: a copy of the current path *)
Definition getCurrentPath (c : DrawingCanvas) : list point := currentPath c.

(** [clear()] *)
Definition clear (c : DrawingCanvas) : DrawingCanvas :=
  {| currentPath := []; isDrawing := isDrawing c;
     lastX := lastX c; lastY := lastY c;
     painted := painted c ++ [Cleared] |}.

End Canvas.

(** ** The application: class [CollaborativeDrawingApp] *)

Module App.

Abbreviation point := (Z * Z)%type.

(** An entry of [operationHistory] and [redoHistory]. *)
Record stroke : Type := {
  points : list point;
  color : string;
  width : Z;
  tool : string;
  timestamp : Z
}.

(** The fields that drawing, undo and redo work on. *)
Record state : Type := {
  canvas : Canvas.DrawingCanvas;
  wsClient : Transport.client;
  currentTool : string;
  currentColor : string;
  brushSize : Z;
  isDrawing : bool;
  operationHistory : list stroke;
  redoHistory : list stroke
}.

Definition set_canvas (c : Canvas.DrawingCanvas) (a : state) : state :=
  {| canvas := c; wsClient := wsClient a; currentTool := currentTool a;
     currentColor := currentColor a; brushSize := brushSize a;
     isDrawing := isDrawing a; operationHistory := operationHistory a;
     redoHistory := redoHistory a |}.

Definition set_wsClient (w : Transport.client) (a : state) : state :=
  {| canvas := canvas a; wsClient := w; currentTool := currentTool a;
     currentColor := currentColor a; brushSize := brushSize a;
     isDrawing := isDrawing a; operationHistory := operationHistory a;
     redoHistory := redoHistory a |}.

Definition set_isDrawing (b : bool) (a : state) : state :=
  {| canvas := canvas a; wsClient := wsClient a; currentTool := currentTool a;
     currentColor := currentColor a; brushSize := brushSize a;
     isDrawing := b; operationHistory := operationHistory a;
     redoHistory := redoHistory a |}.

Definition set_histories (h r : list stroke) (a : state) : state :=
  {| canvas := canvas a; wsClient := wsClient a; currentTool := currentTool a;
     currentColor := currentColor a; brushSize := brushSize a;
     isDrawing := isDrawing a; operationHistory := h; redoHistory := r |}.

(** The messages that the application hands to the transport. *)
Definition point_json (p : point) : json :=
  JObj (<["x" := JNum p.1]> (<["y" := JNum p.2]> ∅)).

Definition cursor_message (p : point) : json :=
  JObj (<["type" := JStr "cursor"]> (<["data" := point_json p]> ∅)).

Definition draw_message (ps : list point) (col : string) (w : Z)
    (tl : string) : json :=
  JObj (<["type" := JStr "draw"]>
       (<["data" := JObj (<["points" := JArr (point_json <$> ps)]>
                         (<["color" := JStr col]>
                         (<["width" := JNum w]>
                         (<["tool" := JStr tl]> ∅))))]> ∅)).

Definition clear_message : json := JObj (<["type" := JStr "clear"]> ∅).

Definition undo_message : json := JObj (<["type" := JStr "undo"]> ∅).

(** The loop [for (const op of ops) this.canvas.drawPath(op.points, ...)] *)
Definition drawAll (ops : list stroke) (c : Canvas.DrawingCanvas)
    : Canvas.DrawingCanvas :=
  foldl (λ c op, Canvas.drawPath (Some (points op)) (color op) (width op)
                   (tool op) c) c ops.

Section WithSerializer.

Variable JSON_stringify : json → string.

Definition send (m : json) (a : state) : state :=
  set_wsClient (Transport.send JSON_stringify m (wsClient a)) a.

(** [startDrawing(e)], with the position of the event on the canvas *)
Definition startDrawing (p : point) (a : state) : state :=
  if decide (currentTool a = "clear") then a
  else send (cursor_message p)
         (set_canvas (Canvas.startDrawing p (canvas a))
            (set_isDrawing true a)).

(** [draw(e)]: while drawing, the new point is painted and the last two
    points of the path are sent; the cursor is sent in any case. *)
Definition draw (p : point) (a : state) : state :=
  if isDrawing a then
    let a1 := set_canvas (Canvas.draw p (canvas a)) a in
    let path := Canvas.getCurrentPath (canvas a1) in
    let a2 :=
      if decide (0 < length path)%nat
      then send (draw_message (slice_last 2 path) (currentColor a1)
                   (brushSize a1) (currentTool a1)) a1
      else a1 in
    send (cursor_message p) a2
  else send (cursor_message p) a.

(** [stopDrawing()], at time [t] *)
Definition stopDrawing (t : Z) (a : state) : state :=
  if isDrawing a then
    let a1 := set_canvas (Canvas.stopDrawing (canvas a))
                (set_isDrawing false a) in
    let path := Canvas.getCurrentPath (canvas a1) in
    if decide (0 < length path)%nat
    then set_histories
           (operationHistory a1 ++
            [{| points := path; color := currentColor a1;
                width := brushSize a1; tool := currentTool a1;
                timestamp := t |}])
           [] a1
    else a1
  else a.

(** [clearCanvas()] *)
Definition clearCanvas (a : state) : state :=
  send clear_message (set_canvas (Canvas.clear (canvas a)) a).

(** [undo()] *)
Definition undo (a : state) : state :=
  match pop (operationHistory a) with
  | None => a
  | Some (lastOp, rest) =>
      let a1 := set_histories rest (redoHistory a ++ [lastOp]) a in
      let a2 := set_canvas (drawAll rest (Canvas.clear (canvas a1))) a1 in
      send undo_message a2
  end.

(** [redo()] *)
Definition redo (a : state) : state :=
  match pop (redoHistory a) with
  | None => a
  | Some (lastRedo, rest) =>
      let a1 := set_histories (operationHistory a ++ [lastRedo]) rest a in
      set_canvas (Canvas.drawPath (Some (points lastRedo)) (color lastRedo)
                    (width lastRedo) (tool lastRedo) (canvas a1)) a1
  end.

(** [handleRemoteClear()] *)
Definition handleRemoteClear (a : state) : state :=
  set_histories [] [] (set_canvas (Canvas.clear (canvas a)) a).

(** A whole stroke: the button goes down at [p], the pointer moves through
    [ps], the button goes up at time [t]. *)
Definition stroke_gesture (p : point) (ps : list point) (t : Z) (a : state)
    : state :=
  stopDrawing t (foldl (λ a q, draw q a) (startDrawing p a) ps).

(** A list of messages handed to the transport one after the other. *)
Definition send_all (ms : list json) (w : Transport.client)
    : Transport.client :=
  foldl (λ w m, Transport.send JSON_stringify m w) w ms.

End WithSerializer.

(** The marks that a repaint of a history leaves: one path per entry with
    at least two points. *)
Definition repaint (ops : list stroke) : list Canvas.mark :=
  omap (λ op, if decide (length (points op) < 2)%nat then None
              else Some (Canvas.Path (points op) (color op) (width op)
                           (tool op))) ops.

(** The messages of a stroke after the first cursor message: for every
    move, the segment from the previous point, then the cursor. *)
Fixpoint move_messages (col : string) (w : Z) (tl : string) (prev : point)
    (ps : list point) : list json :=
  match ps with
  | [] => []
  | p :: ps' =>
      draw_message [prev; p] col w tl :: cursor_message p
      :: move_messages col w tl p ps'
  end.

(** Sample data: an application that has drawn two strokes and undone a
    third. *)
Definition sample_stroke (n : Z) : stroke :=
  {| points := [(n, 0); (n, 10); (n, 20)]; color := "#FF6B6B"; width := 5;
     tool := "brush"; timestamp := n |}.

Definition sample_app : state :=
  {| canvas := {| Canvas.currentPath := []; Canvas.isDrawing := false;
                  Canvas.lastX := 0; Canvas.lastY := 0;
                  Canvas.painted := [] |};
     wsClient := Transport.sample_connected;
     currentTool := "brush"; currentColor := "#FF6B6B"; brushSize := 5;
     isDrawing := false;
     operationHistory := [sample_stroke 1; sample_stroke 2];
     redoHistory := [sample_stroke 3] |}.

End App.

(** * Properties *)

(** ** The operation log *)

Section DrawingStateFacts.
Import DrawingState.

Implicit Types (s : state) (r : loc) (rs : list loc) (h : loc → operation).

Lemma appendAll_snoc rs r s :
  appendAll (rs ++ [r]) s = (addOperation r (appendAll rs s)).2.
Proof. unfold appendAll. by rewrite foldl_app. Qed.

Lemma addOperation_version_of_eq r s :
  version_of (addOperation r s).2 r = Some (this_version s + 1).
Proof. unfold version_of. simpl. by rewrite fn_lookup_insert. Qed.

Lemma addOperation_version_of_ne r r' s :
  r ≠ r' → version_of (addOperation r s).2 r' = version_of s r'.
Proof. intros Hne. unfold version_of. simpl. by rewrite fn_lookup_insert_ne. Qed.

(** Appending an object that is not yet in the log leaves the versions of
    the entries alone and puts the next version at the end. *)
Lemma addOperation_versions_fresh r s :
  r ∉ operations s →
  versions (addOperation r s).2 = versions s ++ [Some (this_version s + 1)].
Proof.
  intros Hfresh. unfold versions.
  change (operations (addOperation r s).2) with (operations s ++ [r]).
  rewrite fmap_app. f_equal.
  - apply list_fmap_ext. intros i r' Hr'.
    apply addOperation_version_of_ne. intros ->.
    apply Hfresh. by eapply list_elem_of_lookup_2.
  - change ([version_of (addOperation r s).2 r]
            = [Some (this_version s + 1)]).
    by rewrite addOperation_version_of_eq.
Qed.

Lemma appendAll_operations rs s :
  operations (appendAll rs s) = operations s ++ rs.
Proof.
  induction rs as [|r rs IH] using rev_ind.
  - by rewrite app_nil_r.
  - rewrite appendAll_snoc. simpl. by rewrite IH, app_assoc.
Qed.

Lemma appendAll_this_version rs s :
  this_version (appendAll rs s) = this_version s + Z.of_nat (length rs).
Proof.
  induction rs as [|r rs IH] using rev_ind.
  - simpl. lia.
  - rewrite appendAll_snoc. simpl. rewrite IH, length_app. simpl. lia.
Qed.

(** The versions of a log built from distinct objects are [1, 2, ..., n]. *)
Lemma appendAll_versions h rs :
  NoDup rs →
  versions (appendAll rs (constructor h))
  = Some <$> seqZ 1 (Z.of_nat (length rs)).
Proof.
  induction rs as [|r rs IH] using rev_ind; intros Hnd; [done|].
  apply NoDup_app in Hnd as (Hnd & Hfresh & _).
  rewrite appendAll_snoc, addOperation_versions_fresh.
  - rewrite IH by done. rewrite appendAll_this_version, length_app. simpl.
    replace (Z.of_nat (length rs + 1)) with (Z.of_nat (length rs) + 1) by lia.
    rewrite seqZ_app by lia. rewrite fmap_app. f_equal.
    rewrite seqZ_cons, seqZ_nil by lia. simpl. do 2 f_equal. lia.
  - rewrite appendAll_operations. simpl. intros Hin.
    apply (Hfresh r); [done|]. apply list_elem_of_singleton. done.
Qed.

Lemma seqZ_strictly_sorted m n : StronglySorted Z.lt (seqZ m n).
Proof.
  destruct (decide (0 ≤ n)) as [Hn|Hn].
  - revert m. pattern n. apply natlike_ind; [| |done].
    + intros m. constructor.
    + clear n Hn. intros n Hn IH m.
      rewrite seqZ_cons by lia. constructor.
      * replace (Z.pred (Z.succ n)) with n by lia. apply IH.
      * apply Forall_forall. intros x Hx. apply elem_of_seqZ in Hx. lia.
  - unfold seqZ. rewrite Z2Nat.nonpos by lia. constructor.
Qed.

Lemma filter_all_true (P : loc → Prop) `{∀ r, Decision (P r)} (l : list loc) :
  Forall P l → filter P l = l.
Proof.
  induction 1 as [|r l HP _ IH]; [done|].
  rewrite filter_cons, decide_True by done. by rewrite IH.
Qed.

(** In a log sorted strictly by version, the entries above [v] are the part
    of the log behind some point. *)
Lemma sorted_after_exact s v (l : list loc) (vs : list Z) :
  version_of s <$> l = Some <$> vs → StronglySorted Z.lt vs →
  ∃ before,
    l = before ++ filter (λ r, version_gt v (heap s r)) l ∧
    Forall (λ r, ∃ n, version_of s r = Some n ∧ n ≤ v) before ∧
    Forall (λ r, ∃ n, version_of s r = Some n ∧ v < n)
           (filter (λ r, version_gt v (heap s r)) l).
Proof.
  revert vs. induction l as [|r l IH]; intros vs Hvs Hsorted.
  { exists []. repeat split; constructor. }
  destruct vs as [|n vs]; [done|]. simpl in Hvs.
  injection Hvs as Hr Hvs. apply StronglySorted_cons in Hsorted as [Hall Hs].
  assert (Hkeys : ∀ r', r' ∈ l → ∃ n', version_of s r' = Some n' ∧ n < n').
  { intros r' Hin. apply list_elem_of_lookup in Hin as [i Hi].
    pose proof (f_equal (.!! i) Hvs) as Hv. simpl in Hv.
    rewrite !list_lookup_fmap, Hi in Hv.
    destruct (vs !! i) as [n'|] eqn:Hn'; [|done]. simpl in Hv.
    exists n'. split; [congruence|].
    eapply Forall_forall in Hall; [exact Hall|]. by eapply list_elem_of_lookup_2. }
  destruct (decide (v < n)) as [Hlt|Hge].
  - assert (Hkeep : Forall (λ r', version_gt v (heap s r')) (r :: l)).
    { constructor.
      - unfold version_gt. unfold version_of in Hr. by rewrite Hr.
      - apply Forall_forall. intros r' Hin.
        destruct (Hkeys r' Hin) as (n' & Hn' & Hlt').
        unfold version_gt. unfold version_of in Hn'. rewrite Hn'. lia. }
    rewrite (filter_all_true _ _ Hkeep). exists []. repeat split; [constructor|].
    constructor; [by eauto|].
    apply Forall_forall. intros r' Hin.
    destruct (Hkeys r' Hin) as (n' & Hn' & Hlt'). exists n'. split; [done|lia].
  - destruct (IH vs Hvs Hs) as (before & Heq & Hb & Ha).
    rewrite filter_cons, decide_False.
    2:{ unfold version_gt. unfold version_of in Hr. rewrite Hr. lia. }
    exists (r :: before). repeat split; [simpl; congruence| |done].
    constructor; [|done]. exists n. split; [done|lia].
Qed.

Lemma strictly_increasing_after_exact s v :
  strictly_increasing s → after_exact v s.
Proof.
  intros (vs & Hvs & Hsorted & _). unfold after_exact, getOperationsAfter.
  by eapply sorted_after_exact.
Qed.

(** An object that carries a version is not among the objects still to be
    appended, when each of those is without a version at its append. *)
Lemma versioned_not_appended rs s r :
  version (heap s r) ≠ None → unversioned_at_append rs s → r ∉ rs.
Proof.
  revert s. induction rs as [|r' rs IH]; intros s Hr Hrs.
  { apply not_elem_of_nil. }
  destruct Hrs as [Hr' Hrs]. apply not_elem_of_cons. split.
  - intros ->. done.
  - apply (IH (addOperation r' s).2); [|done]. simpl.
    destruct (decide (r = r')) as [->|Hne].
    + by rewrite fn_lookup_insert.
    + by rewrite fn_lookup_insert_ne.
Qed.

(** Operations that have no version before they are appended, as the data
    model has it, are pairwise distinct objects. *)
Lemma unversioned_at_append_NoDup rs s :
  unversioned_at_append rs s → NoDup rs.
Proof.
  revert s. induction rs as [|r rs IH]; intros s Hrs; [constructor|].
  destruct Hrs as [_ Hrs]. constructor; [|by eapply IH].
  eapply versioned_not_appended; [|exact Hrs].
  simpl. by rewrite fn_lookup_insert.
Qed.

(** C3: for every sequence of appends of operation objects to an empty log,
    the objects being pairwise distinct (as they are when each one is new,
    without a version, at its append: [unversioned_at_append_NoDup]), the
    entries are sorted by strictly increasing version (they carry the
    versions 1, 2, ..., n, so no two share one), and for every [v],
    [getOperationsAfter(v)] is exactly the entries with a version above
    [v], in log order: the part of the log that follows the entries with a
    version of at most [v]. *)
Theorem appends_sorted_and_after_exact h rs :
  NoDup rs →
  log_invariant h rs ∧
  versions (appendAll rs (constructor h))
  = Some <$> seqZ 1 (Z.of_nat (length rs)).
Proof.
  intros Hnd. pose proof (appendAll_versions h rs Hnd) as Hvs.
  assert (Hinc : strictly_increasing (appendAll rs (constructor h))).
  { eexists. split; [exact Hvs|]. split; [apply seqZ_strictly_sorted|].
    apply NoDup_seqZ. }
  split; [|done]. split; [done|].
  intros v. by apply strictly_increasing_after_exact.
Qed.

Lemma appends_sorted_and_after_exact_witness :
  NoDup [0; 1; 2]%nat ∧
  (log_invariant sample_heap [0; 1; 2]%nat ∧
   versions (appendAll [0; 1; 2]%nat (constructor sample_heap))
   = Some <$> seqZ 1 (Z.of_nat (length [0; 1; 2]%nat))).
Proof.
  assert (Hnd : NoDup [0; 1; 2]%nat) by (apply (bool_decide_unpack _); vm_compute; exact I).
  split; [exact Hnd|].
  exact (appends_sorted_and_after_exact sample_heap [0; 1; 2]%nat Hnd).
Defined.

(** Why the objects have to be distinct: [addOperation] writes the version
    into the object it is given, so appending an object that is in the log
    already overwrites the version of that entry, and the log then holds
    two entries with version 2.  No caller does this. *)
Lemma appends_same_object_not_sorted :
  versions (appendAll [0; 0]%nat (constructor sample_heap)) = [Some 2; Some 2] ∧
  ¬ log_invariant sample_heap [0; 0]%nat.
Proof.
  split; [reflexivity|].
  intros [(vs & Hvs & Hsorted & _) _].
  change (versions _) with [Some 2; Some 2] in Hvs.
  destruct vs as [|a [|b [|? ?]]]; try discriminate Hvs.
  injection Hvs as <- <-.
  apply StronglySorted_cons in Hsorted as [Hall _].
  apply Forall_cons in Hall as [Hlt _]. lia.
Qed.

End DrawingStateFacts.

(** ** The broadcast router *)

Section ServerFacts.
Import Server.

Variable JSON_stringify : json → string.

Implicit Types (s : state) (m : registry) (u k : string) (c : client)
  (X : option string) (e : env).

Lemma elem_of_send_each data X m u d :
  (u, d) ∈ send_each data X m ↔
  d = data ∧ Some u ≠ X ∧ ∃ c, (u, c) ∈ m ∧ ws c = OPEN.
Proof.
  induction m as [|[k c] m IH]; simpl.
  - split; [by intros ?%elem_of_nil|]. by intros (_ & _ & ? & ?%elem_of_nil & _).
  - destruct (decide (Some k ≠ X ∧ ws c = OPEN)) as [[Hk Hc]|Hno].
    + rewrite elem_of_cons, IH. split.
      * intros [[= -> ->]|(-> & ? & c' & ? & ?)].
        -- repeat split; [done|]. exists c. split; [left|done].
        -- repeat split; [done|]. exists c'. split; [by right|done].
      * intros (-> & Hu & c' & [[= -> ->]|Hin]%elem_of_cons & Hopen);
          [by left|]. right. eauto.
    + rewrite IH. split.
      * intros (-> & ? & c' & ? & ?). repeat split; [done|].
        exists c'. split; [by right|done].
      * intros (-> & Hu & c' & [[= -> ->]|Hin]%elem_of_cons & Hopen);
          [by destruct Hno|]. eauto.
Qed.

Lemma send_each_keys_sublist data X m :
  (send_each data X m).*1 `sublist_of` m.*1.
Proof.
  induction m as [|[k c] m IH]; simpl; [done|].
  case_decide; simpl; [by apply sublist_skip|by apply sublist_cons].
Qed.

(** In a map, which has one entry per key, [get] finds the entry. *)
Lemma get_Some_elem_of m u c :
  NoDup m.*1 → get u m = Some c ↔ (u, c) ∈ m.
Proof.
  induction m as [|[k c'] m IH]; simpl; intros Hnd.
  - split; [done|by intros ?%elem_of_nil].
  - apply NoDup_cons in Hnd as [Hk Hnd]. case_decide as Hku.
    + subst k. split.
      * intros [= ->]. left.
      * intros [[= ->]|Hin]%elem_of_cons; [done|].
        destruct Hk. change u with ((u, c).1). by apply list_elem_of_fmap_2.
    + rewrite IH by done. rewrite elem_of_cons. split; [by right|].
      intros [[= -> ->]|?]; [done|done].
Qed.

(** C4: [broadcast(m, X)] hands the serialised [m] to exactly the registered
    connections whose socket is open and whose id is not [X], once each and
    in registry order; nothing goes to [X], and a connection that is not
    open is passed over (the call always returns, and changes no state). *)
Theorem broadcast_delivers_exactly (message : obj) X s :
  NoDup (clients s).*1 →
  let sent := broadcast JSON_stringify message X s in
  (∀ u d, (u, d) ∈ sent ↔
     d = JSON_stringify (JObj message) ∧ Some u ≠ X ∧
     ∃ c, get u (clients s) = Some c ∧ ws c = OPEN) ∧
  NoDup sent.*1 ∧
  sent.*1 `sublist_of` (clients s).*1 ∧
  (∀ x d, X = Some x → (x, d) ∉ sent).
Proof.
  intros Hnd sent. unfold sent, broadcast. split; [|split; [|split]].
  - intros u d. rewrite elem_of_send_each. split.
    + intros (-> & Hu & c & Hin & Hopen).
      repeat split; [done|]. exists c. by rewrite get_Some_elem_of.
    + intros (-> & Hu & c & Hget & Hopen).
      repeat split; [done|]. exists c. by rewrite <- get_Some_elem_of.
  - eapply sublist_NoDup; [exact Hnd|apply send_each_keys_sublist].
  - apply send_each_keys_sublist.
  - intros x d -> (_ & Hx & _)%elem_of_send_each. done.
Qed.

End ServerFacts.

Lemma broadcast_delivers_exactly_witness :
  NoDup (Server.clients Server.sample_empty).*1 ∧
  let sent := Server.broadcast (λ _, "{}") Server.sample_stroke
                (Some "user_a") Server.sample_empty in
  (∀ u d, (u, d) ∈ sent ↔
     d = "{}" ∧ Some u ≠ Some "user_a" ∧
     ∃ c, Server.get u (Server.clients Server.sample_empty) = Some c ∧
          Server.ws c = OPEN) ∧
  NoDup sent.*1 ∧
  sent.*1 `sublist_of` (Server.clients Server.sample_empty).*1 ∧
  (∀ x d, Some "user_a" = Some x → (x, d) ∉ sent).
Proof.
  assert (Hnd : NoDup (Server.clients Server.sample_empty).*1)
    by (apply (bool_decide_unpack _); vm_compute; exact I).
  split; [exact Hnd|].
  exact (broadcast_delivers_exactly (λ _, "{}") Server.sample_stroke
           (Some "user_a") Server.sample_empty Hnd).
Defined.

(** ** Undo *)

Section UndoFacts.

Variable JSON_stringify : json → string.

(** The scan of the log finds nothing when no entry is by [u]. *)
Lemma log_find_last_None (s : DrawingState.state) u k :
  ¬ DrawingState.authored u s →
  DrawingState.find_last (DrawingState.heap s) u
    (DrawingState.operations s) k = None.
Proof.
  intros Hnone. induction k as [|i IH]; simpl; [done|].
  destruct (DrawingState.operations s !! i) as [r|] eqn:Hr; [|done].
  case_decide as Hu; [|done].
  destruct Hnone. apply Exists_exists. exists r.
  split; [|done]. by eapply list_elem_of_lookup_2.
Qed.

Lemma server_find_last_None (s : Server.state) u k :
  ¬ Server.authored u s →
  Server.find_last u (Server.operations s) k = None.
Proof.
  intros Hnone. induction k as [|i IH]; simpl; [done|].
  destruct (Server.operations s !! i) as [o|] eqn:Ho; [|done].
  destruct (Server.is_string u (o !! "userId")) eqn:Hu; [|done].
  destruct Hnone. apply Exists_exists. exists o.
  split; [|done]. by eapply list_elem_of_lookup_2.
Qed.

(** The scan stops at the last entry by [u]. *)
Lemma log_find_last_Some (s : DrawingState.state) u k i :
  DrawingState.find_last (DrawingState.heap s) u
    (DrawingState.operations s) k = Some i →
  (i < k)%nat ∧
  ∃ r, DrawingState.operations s !! i = Some r ∧
       DrawingState.userId (DrawingState.heap s r) = Some u ∧
       ∀ j r', (i < j < k)%nat → DrawingState.operations s !! j = Some r' →
               DrawingState.userId (DrawingState.heap s r') ≠ Some u.
Proof.
  induction k as [|k IH]; simpl; [done|].
  destruct (DrawingState.operations s !! k) as [r|] eqn:Hr.
  - case_decide as Hu.
    + intros [= <-]. split; [lia|]. exists r. repeat split; [done..|].
      intros j r' ? _. lia.
    + intros (Hlt & r0 & Hr0 & Hu0 & Hlater)%IH. split; [lia|].
      exists r0. repeat split; [done..|].
      intros j r' Hj Hr'. destruct (decide (j = k)) as [->|Hne].
      * by simplify_eq.
      * apply (Hlater j r'); [lia|done].
  - intros (Hlt & r0 & Hr0 & Hu0 & Hlater)%IH. split; [lia|].
    exists r0. repeat split; [done..|].
    intros j r' Hj Hr'. destruct (decide (j = k)) as [->|Hne].
    * by simplify_eq.
    * apply (Hlater j r'); [lia|done].
Qed.

Lemma log_find_last_is_Some (s : DrawingState.state) u k :
  (∃ i r, (i < k)%nat ∧ DrawingState.operations s !! i = Some r ∧
          DrawingState.userId (DrawingState.heap s r) = Some u) →
  is_Some (DrawingState.find_last (DrawingState.heap s) u
             (DrawingState.operations s) k).
Proof.
  induction k as [|k IH]; simpl; intros (i & r & Hi & Hr & Hu); [lia|].
  destruct (DrawingState.operations s !! k) as [r'|] eqn:Hr'.
  - case_decide; [done|]. apply IH. exists i, r.
    repeat split; [|done..]. destruct (decide (i = k)); [by simplify_eq|lia].
  - apply IH. exists i, r.
    repeat split; [|done..]. destruct (decide (i = k)); [by simplify_eq|lia].
Qed.

(** X1: the log's own [undo] deletes the most recent entry of the author, and
    nothing else: the entry leaves [operations], the other entries keep their
    place and their version, and the version counter stays. *)
Lemma log_undo_removes_last (s : DrawingState.state) u :
  DrawingState.authored u s →
  ∃ i r,
    DrawingState.undo u s
    = (Some r,
       {| DrawingState.heap := DrawingState.heap s;
          DrawingState.operations := delete i (DrawingState.operations s);
          DrawingState.undoStack :=
            filter (λ r', DrawingState.operationId (DrawingState.heap s r')
                          ≠ DrawingState.operationId (DrawingState.heap s r))
                   (DrawingState.undoStack s);
          DrawingState.redoStack := DrawingState.redoStack s;
          DrawingState.this_version := DrawingState.this_version s |}) ∧
    DrawingState.operations s !! i = Some r ∧
    DrawingState.userId (DrawingState.heap s r) = Some u ∧
    ∀ j r', (i < j)%nat → DrawingState.operations s !! j = Some r' →
            DrawingState.userId (DrawingState.heap s r') ≠ Some u.
Proof.
  intros (r0 & [i0 Hi0]%list_elem_of_lookup & Hu0)%Exists_exists.
  destruct (log_find_last_is_Some s u (length (DrawingState.operations s)))
    as [i Hfind].
  { exists i0, r0. repeat split; [|done..]. by eapply lookup_lt_Some. }
  destruct (log_find_last_Some _ _ _ _ Hfind) as (Hlt & r & Hr & Hu & Hlater).
  exists i, r. unfold DrawingState.undo. rewrite Hfind, Hr.
  repeat split; [done..|].
  intros j r' Hj Hr'. apply (Hlater j r'); [|done].
  split; [done|]. by eapply lookup_lt_Some.
Qed.

(** C10: when the author [u] has no entry, the log's [undo(u)] returns
    [null] and leaves the log, entries and version counter included, as it
    was; the server's undo handler, called directly or through an [undo]
    message of the connection [u], changes nothing and sends nothing. *)
Theorem undo_without_entries_is_noop u (log : DrawingState.state)
    (srv : Server.state) (e : Server.env) :
  ¬ DrawingState.authored u log →
  ¬ Server.authored u srv →
  DrawingState.undo u log = (None, log) ∧
  Server.handleUndo JSON_stringify e u srv = (srv, []) ∧
  Server.on_message JSON_stringify e u (Some Server.undo_message) srv
  = (srv, []).
Proof.
  intros Hlog Hsrv. split; [|split].
  - unfold DrawingState.undo. by rewrite log_find_last_None.
  - unfold Server.handleUndo. by rewrite server_find_last_None.
  - unfold Server.on_message, Server.handleMessage.
    destruct (Server.get u (Server.clients srv)); [|done].
    change (Server.prop "type" Server.undo_message)
      with (Some (Some (JStr "undo"))).
    cbn [Server.is_string]. rewrite !bool_decide_eq_false_2 by done.
    rewrite bool_decide_eq_true_2 by done.
    unfold Server.handleUndo. by rewrite server_find_last_None.
Qed.

End UndoFacts.

Lemma undo_without_entries_is_noop_witness :
  let log := DrawingState.appendAll [0; 1]%nat
               (DrawingState.constructor DrawingState.sample_heap) in
  ¬ DrawingState.authored "user_b" log ∧
  ¬ Server.authored "user_b" Server.sample_state ∧
  DrawingState.undo "user_b" log = (None, log) ∧
  Server.handleUndo (λ _, "{}") Server.sample_env "user_b" Server.sample_state
  = (Server.sample_state, []) ∧
  Server.on_message (λ _, "{}") Server.sample_env "user_b"
    (Some Server.undo_message) Server.sample_state
  = (Server.sample_state, []).
Proof.
  intros log.
  assert (Hlog : ¬ DrawingState.authored "user_b" log)
    by (apply (bool_decide_unpack _); vm_compute; exact I).
  assert (Hsrv : ¬ Server.authored "user_b" Server.sample_state)
    by (apply (bool_decide_unpack _); vm_compute; exact I).
  split; [exact Hlog|]. split; [exact Hsrv|].
  exact (undo_without_entries_is_noop (λ _, "{}") "user_b" log
           Server.sample_state Server.sample_env Hlog Hsrv).
Defined.

(** ** The message dispatcher *)

Section DispatchFacts.
Import Server.

Variable JSON_stringify : json → string.


(** The undo handler never takes an entry out of the server's log. *)
Lemma handleUndo_keeps_log (e : env) (u : string) (s : state) :
  operations s `prefix_of` operations (handleUndo JSON_stringify e u s).1.
Proof.
  unfold handleUndo.
  destruct (find_last u (operations s) (length (operations s))); [|done].
  destruct (operations s !! n); [|done].
  by apply prefix_app_r.
Qed.

(** C1, at a failing input: [user_a] sends a stroke.  The operation that is
    stored and sent to [user_b] is attributed to [user_a], but it carries no
    version; and when the payload brings an author and a version of its own,
    the author is overwritten while the client's version 99 is stored and
    broadcast as it came. *)
Theorem draw_message_gets_no_version :
  (∃ operation : obj,
     on_message JSON_stringify sample_env "user_a"
       (Some (draw_message sample_stroke)) sample_empty
     = ({| clients := sample_clients; operations := [operation] |},
        [("user_b", JSON_stringify (draw_message operation))]) ∧
     operation !! "userId" = Some (JStr "user_a") ∧
     operation !! "version" = None) ∧
  (∃ operation : obj,
     on_message JSON_stringify sample_env "user_a"
       (Some (draw_message forged_stroke)) sample_empty
     = ({| clients := sample_clients; operations := [operation] |},
        [("user_b", JSON_stringify (draw_message operation))]) ∧
     operation !! "userId" = Some (JStr "user_a") ∧
     operation !! "version" = Some (JNum 99)).
Proof.
  split; eexists; (split; [vm_compute; reflexivity|]); by vm_compute.
Qed.

(** C2, at a failing input: the log holds one stroke of [user_a], who sends
    [undo].  The stroke stays in the log; an undo marker that names it is
    appended behind it and broadcast to all open connections, the sender
    included. *)
Theorem undo_message_appends_marker :
  ∃ undoOp : obj,
    on_message JSON_stringify sample_env "user_a" (Some undo_message)
      sample_state
    = ({| clients := sample_clients;
          operations := [stored_stroke; undoOp] |},
       let data := JSON_stringify
                     (JObj (<["type" := JStr "undo"]>
                           (<["data" := JObj undoOp]> ∅))) in
       [("user_a", data); ("user_b", data)]) ∧
    undoOp !! "type" = Some (JStr "undo") ∧
    undoOp !! "userId" = Some (JStr "user_a") ∧
    undoOp !! "targetOperationId" = stored_stroke !! "operationId" ∧
    stored_stroke !! "operationId" = Some (JStr "op_1600_aaaaaaaaa").
Proof.
  eexists. split; [vm_compute; reflexivity|]. by vm_compute.
Qed.

(** C5, at every input: a [ping] matches no case of the dispatcher, so the
    server sends nothing, to the sender or to anyone, and changes nothing. *)
Theorem ping_message_is_dropped (e : env) (u : string) (timestamp : Z)
    (s : state) :
  on_message JSON_stringify e u (Some (ping_message timestamp)) s = (s, []).
Proof.
  unfold on_message, handleMessage.
  destruct (get u (clients s)); [|done].
  change (prop "type" (ping_message timestamp))
    with (Some (Some (JStr "ping"))).
  cbn [is_string]. by rewrite !bool_decide_eq_false_2 by done.
Qed.

End DispatchFacts.

(** ** The reconnecting transport *)

Section TransportFacts.
Import Transport.

Variable JSON_stringify : json → string.

Implicit Types (c : client) (ev : event) (tr : list event) (fuel : nat).

Lemma run_app fuel tr1 tr2 c :
  run JSON_stringify fuel (tr1 ++ tr2) c
  = run JSON_stringify fuel tr1 c ≫= run JSON_stringify fuel tr2.
Proof.
  revert c. induction tr1 as [|ev tr1 IH]; intros c; simpl; [done|].
  destruct (step JSON_stringify fuel ev c); [apply IH|done].
Qed.

(** *** Reachable states *)

Lemma send_socket m c :
  ws (send JSON_stringify m c) = ws c ∧
  isConnected (send JSON_stringify m c) = isConnected c.
Proof. unfold send. by destruct (connected c). Qed.

Lemma processMessageQueue_socket fuel c c' :
  processMessageQueue JSON_stringify fuel c = Some c' →
  ws c' = ws c ∧ isConnected c' = isConnected c.
Proof.
  revert c. induction fuel as [|fuel IH]; intros c; simpl.
  - destruct (messageQueue c); [by intros [= ->]|done].
  - destruct (messageQueue c) as [|m q]; [by intros [= ->]|].
    intros [Hws Hconn]%IH.
    destruct (send_socket m (set_messageQueue q c)) as [Hws' Hconn'].
    split; [by rewrite Hws, Hws'|by rewrite Hconn, Hconn'].
Qed.

(** From [constructor()] on, [isConnected] implies that there is a socket. *)
Lemma has_socket_constructor : has_socket constructor.
Proof. intros [=]. Qed.

Lemma has_socket_step fuel ev c c' :
  has_socket c → step JSON_stringify fuel ev c = Some c' → has_socket c'.
Proof.
  unfold has_socket. intros Hc. destruct ev; simpl.
  - unfold onopen. intros [Hws _]%processMessageQueue_socket _.
    rewrite Hws. by eexists.
  - intros [= <-]. unfold onclose. simpl. by case_decide.
  - destruct (pending c); intros [= <-]; [done|]. by eexists.
  - intros [= <-]. destruct (send_socket m c) as [-> ->]. done.
  - intros [= <-]. unfold disconnect.
    destruct (ws c) eqn:Hws; simpl; [by eexists|]. by rewrite Hws.
  - intros [= <-]. unfold ping. destruct (connected c); [|done].
    edestruct send_socket as [-> ->]. done.
  - intros [= <-]. done.
Qed.

(** *** Giving up *)

Lemma parked_step fuel ev c :
  parked c → is_open ev = false →
  ∃ c', step JSON_stringify fuel ev c = Some c' ∧ parked c' ∧
        scheduled c' = scheduled c ∧ sockets c' = sockets c.
Proof.
  intros (Hmax & Hpending & Hdis) Hev. unfold parked.
  destruct ev; try discriminate Hev; simpl.
  - eexists. split; [done|]. unfold onclose. simpl.
    case_decide; [lia|done].
  - rewrite Hpending. by eexists.
  - eexists. split; [done|]. unfold send, connected. rewrite Hdis. done.
  - eexists. split; [done|]. unfold disconnect. by destruct (ws c).
  - eexists. split; [done|]. unfold ping, connected. rewrite Hdis. done.
  - by eexists.
Qed.

Lemma parked_run fuel tr c :
  parked c → Forall (λ ev, is_open ev = false) tr →
  ∃ c', run JSON_stringify fuel tr c = Some c' ∧ parked c' ∧
        scheduled c' = scheduled c ∧ sockets c' = sockets c.
Proof.
  intros Hc Htr. revert c Hc.
  induction Htr as [|ev tr Hev _ IH]; intros c Hc; simpl; [by eexists|].
  destruct (parked_step fuel ev c Hc Hev) as (c1 & -> & Hc1 & Hs1 & Hk1).
  destruct (IH c1 Hc1) as (c2 & -> & Hc2 & Hs2 & Hk2).
  exists c2. split; [done|]. split; [done|]. split; congruence.
Qed.

(** C6: from a new transport (base delay 1000, factor 1.5, at most 5
    attempts), whether its first socket fails at once or opens and is lost
    later, five failed attempts in a row are scheduled after 1000, 1500,
    2250, 3375 and 5062.5; the close of the fifth attempt schedules nothing,
    and from then on, as long as no socket opens, the transport stays
    disconnected, sets no timer and creates no socket. *)
Theorem backoff_schedule_then_parked fuel (first tr : list event) :
  first = [] ∨ first = [EvOpen] →
  Forall (λ ev, is_open ev = false) tr →
  ∃ c c',
    run JSON_stringify fuel (first ++ failed_attempts 5 ++ [EvClose])
      (connect constructor) = Some c ∧
    scheduled c = [1000; 1500; 2250; 3375; Qred 5062.5]%Q ∧
    reconnectAttempts c = 5%nat ∧ sockets c = 6%nat ∧
    pending c = 0%nat ∧ isConnected c = false ∧
    run JSON_stringify fuel tr c = Some c' ∧
    scheduled c' = scheduled c ∧ sockets c' = sockets c ∧
    pending c' = 0%nat ∧ isConnected c' = false.
Proof.
  intros Hfirst Htr.
  assert (∃ c, run JSON_stringify fuel (first ++ failed_attempts 5 ++ [EvClose])
                 (connect constructor) = Some c ∧
               scheduled c = [1000; 1500; 2250; 3375; Qred 5062.5]%Q ∧
               reconnectAttempts c = 5%nat ∧ sockets c = 6%nat ∧ parked c)
    as (c & Hrun & Hsch & Hatt & Hsock & Hparked).
  { destruct Hfirst as [-> | ->]; destruct fuel;
      (eexists; split; [vm_compute; reflexivity|]);
      repeat split; vm_compute; done. }
  destruct (parked_run fuel tr c Hparked Htr) as (c' & Hc' & (_ & ? & ?) & ? & ?).
  destruct Hparked as (Hmax & Hpending & Hdis).
  exists c, c'. repeat split; done.
Qed.

(** *** Opening *)

Lemma processMessageQueue_open fuel c :
  connected c = true → (length (messageQueue c) ≤ fuel)%nat →
  ∃ c', processMessageQueue JSON_stringify fuel c = Some c' ∧
        sent c' = sent c ++ (JSON_stringify <$> messageQueue c) ∧
        messageQueue c' = [] ∧ isConnected c' = isConnected c ∧
        ws c' = ws c ∧ reconnectAttempts c' = reconnectAttempts c ∧
        reconnectDelay c' = reconnectDelay c ∧
        scheduled c' = scheduled c ∧ pending c' = pending c ∧
        sockets c' = sockets c.
Proof.
  remember (messageQueue c) as q eqn:Hq. revert c fuel Hq.
  induction q as [|m q IH]; intros c fuel Hq Hconn Hfuel.
  - exists c. destruct fuel; simpl; rewrite <- Hq, ?app_nil_r; done.
  - destruct fuel as [|fuel]; simpl in Hfuel; [lia|].
    simpl. rewrite <- Hq.
    assert (Hsend : send JSON_stringify m (set_messageQueue q c)
                    = set_sent (sent c ++ [JSON_stringify m])
                               (set_messageQueue q c)).
    { unfold send. change (connected (set_messageQueue q c)) with (connected c).
      by rewrite Hconn. }
    rewrite Hsend.
    destruct (IH (set_sent (sent c ++ [JSON_stringify m]) (set_messageQueue q c))
                 fuel) as (c' & -> & Hsent & ?); [done|done|simpl; lia|].
    exists c'. split; [done|]. split; [|done].
    rewrite Hsent. simpl. by rewrite <- app_assoc.
Qed.

(** [onopen] resets the attempt counter and leaves the delay as it is. *)
Lemma onopen_keeps_delay fuel c c' :
  step JSON_stringify fuel EvOpen c = Some c' →
  (length (messageQueue c) ≤ fuel)%nat →
  reconnectAttempts c' = 0%nat ∧ reconnectDelay c' = reconnectDelay c.
Proof.
  simpl. unfold onopen. intros Hstep Hfuel.
  edestruct (processMessageQueue_open fuel) as (c1 & Hc1 & ? & ? & ? & ? & ? & ? & ?);
    [..|rewrite Hc1 in Hstep; injection Hstep as <-; split; eassumption];
    done.
Qed.

(** C7, at a failing input: the first attempt fails, the second succeeds.
    On that success the attempt counter is back at 0 but the delay stays at
    1500, and when the connection is lost again the reconnect is scheduled
    after 1500, not after the base delay 1000. *)
Theorem reopen_keeps_grown_delay fuel :
  ∃ c c',
    run JSON_stringify fuel [EvClose; EvTimer; EvOpen] (connect constructor)
    = Some c ∧
    isConnected c = true ∧ reconnectAttempts c = 0%nat ∧
    reconnectDelay c = 1500%Q ∧
    run JSON_stringify fuel [EvClose] c = Some c' ∧
    scheduled c' = [1000; 1500]%Q.
Proof.
  destruct fuel; do 2 eexists;
    (split; [vm_compute; reflexivity|]); repeat split; vm_compute; done.
Qed.

(** *** Queueing *)

(** While the transport is not connected, no event but the opening of the
    socket connects it, nothing is transmitted, and what [send] is given
    goes to the end of the queue. *)
Lemma not_connected_step fuel ev c :
  connected c = false → is_open ev = false →
  ∃ c', step JSON_stringify fuel ev c = Some c' ∧ connected c' = false ∧
        sent c' = sent c ∧
        messageQueue c' = messageQueue c ++ sends [ev].
Proof.
  intros Hconn Hev. destruct ev; try discriminate Hev; simpl.
  - eexists. split; [done|]. unfold onclose. simpl.
    case_decide; by rewrite app_nil_r.
  - destruct (pending c); eexists; (split; [done|]); rewrite app_nil_r;
      [done|]. unfold connected. simpl. by destruct (isConnected c).
  - eexists. split; [done|]. unfold send. rewrite Hconn. done.
  - eexists. split; [done|]. rewrite app_nil_r. unfold disconnect.
    destruct (ws c) as [r|] eqn:Hws; [|done].
    unfold connected in *. simpl. rewrite Hws in Hconn.
    destruct (isConnected c); [|done]. by destruct r.
  - eexists. split; [done|]. unfold ping. rewrite Hconn. by rewrite app_nil_r.
  - eexists. split; [done|]. by rewrite app_nil_r.
Qed.

Lemma not_connected_run fuel tr c :
  connected c = false → Forall (λ ev, is_open ev = false) tr →
  ∃ c', run JSON_stringify fuel tr c = Some c' ∧ connected c' = false ∧
        sent c' = sent c ∧
        messageQueue c' = messageQueue c ++ sends tr.
Proof.
  intros Hc Htr. revert c Hc.
  induction Htr as [|ev tr Hev _ IH]; intros c Hc.
  { exists c. by rewrite app_nil_r. }
  destruct (not_connected_step fuel ev c Hc Hev) as (c1 & Hstep & Hc1 & Hs1 & Hq1).
  destruct (IH c1 Hc1) as (c2 & Hrun & Hc2 & Hs2 & Hq2).
  exists c2. simpl run. rewrite Hstep. split; [done|]. split; [done|].
  split; [congruence|]. rewrite Hq2, Hq1, <- app_assoc. f_equal.
  change (ev :: tr) with ([ev] ++ tr). unfold sends. by rewrite omap_app.
Qed.

(** C8: while the transport is not connected, whatever else happens short
    of the socket opening, every message given to [send] is put at the end
    of the queue and nothing is transmitted; when the socket then opens,
    the whole queue is transmitted, in the order of submission, each
    message once, and the queue is left empty. *)
Theorem queued_messages_flush_in_order fuel tr c :
  connected c = false →
  Forall (λ ev, is_open ev = false) tr →
  (length (messageQueue c ++ sends tr) ≤ fuel)%nat →
  ∃ c1 c2,
    run JSON_stringify fuel tr c = Some c1 ∧
    messageQueue c1 = messageQueue c ++ sends tr ∧
    sent c1 = sent c ∧
    run JSON_stringify fuel (tr ++ [EvOpen]) c = Some c2 ∧
    sent c2 = sent c ++ (JSON_stringify <$> (messageQueue c ++ sends tr)) ∧
    messageQueue c2 = [] ∧
    connected c2 = true.
Proof.
  intros Hc Htr Hfuel.
  destruct (not_connected_run fuel tr c Hc Htr) as (c1 & Hrun & _ & Hs1 & Hq1).
  destruct (processMessageQueue_open fuel
              (set_backoff 0 (reconnectDelay (set_ws (Some OPEN) c1))
                 (set_isConnected true (set_ws (Some OPEN) c1))))
    as (c2 & Hflush & Hs2 & Hq2 & Hi2 & Hw2 & _); [done|by simpl; rewrite Hq1|].
  exists c1, c2. repeat split; [done..| | | |].
  - rewrite run_app, Hrun. simpl. unfold onopen. by rewrite Hflush.
  - rewrite Hs2. simpl. by rewrite Hs1, Hq1.
  - done.
  - unfold connected. by rewrite Hi2, Hw2.
Qed.

(** *** Disconnecting *)

Lemma set_ws_same c : set_ws (ws c) c = c.
Proof. by destruct c. Qed.

(** C9, as amended: [disconnect()] only closes the current channel, if there
    is one: it changes no other field and cancels no reconnect timer.  The
    transport is marked disconnected when the close event of the channel is
    handled.  While the attempts are not used up that close sets a
    reconnect timer like any other close, and when the timer fires a new
    channel is opened.  When the attempts are used up that close sets no
    timer, and if none is waiting the transport is parked: whatever follows,
    no channel is opened any more. *)
Theorem disconnect_only_closes_channel fuel c :
  disconnect c = set_ws (close <$> ws c) c ∧
  ∃ c1,
    step JSON_stringify fuel EvClose (disconnect c) = Some c1 ∧
    isConnected c1 = false ∧
    ((reconnectAttempts c < maxReconnectAttempts c)%nat →
     scheduled c1 = scheduled c ++ [reconnectDelay c] ∧
     pending c1 = S (pending c) ∧
     ∃ c2, step JSON_stringify fuel EvTimer c1 = Some c2 ∧
           ws c2 = Some CONNECTING ∧
           sockets c2 = S (sockets c)) ∧
    ((maxReconnectAttempts c ≤ reconnectAttempts c)%nat →
     scheduled c1 = scheduled c ∧
     pending c1 = pending c ∧
     (pending c = 0%nat →
      ∀ tr, Forall (λ ev, is_open ev = false) tr →
        ∃ c', run JSON_stringify fuel tr c1 = Some c' ∧
              parked c' ∧ scheduled c' = scheduled c ∧
              sockets c' = sockets c)).
Proof.
  assert (Hdis : disconnect c = set_ws (close <$> ws c) c).
  { unfold disconnect. destruct (ws c) eqn:Hws; [done|].
    simpl. by rewrite <- Hws, set_ws_same. }
  split; [done|]. rewrite Hdis. simpl step. unfold onclose. simpl.
  eexists. split; [done|]. case_decide as Hleft.
  - split; [done|]. split; [|intros ?; lia].
    intros _. simpl. split; [done|]. split; [done|]. by eexists.
  - split; [done|]. split; [intros ?; lia|].
    intros Hup. simpl. split; [done|]. split; [done|].
    intros Hpending tr Htr.
    match goal with |- ∃ c', run _ _ _ ?c1 = _ ∧ _ =>
      destruct (parked_run fuel tr c1) as (c' & Hrun & Hparked & Hs & Hk);
        [by repeat split|done|]
    end.
    by exists c'.
Qed.

End TransportFacts.

Lemma backoff_schedule_then_parked_witness :
  ([Transport.EvOpen] = [] ∨ [Transport.EvOpen] = [Transport.EvOpen]) ∧
  Forall (λ ev, Transport.is_open ev = false)
    [Transport.EvClose; Transport.EvTimer; Transport.EvSend JNull] ∧
  ∃ c c',
    Transport.run (λ _, "{}") 0
      ([Transport.EvOpen] ++ Transport.failed_attempts 5 ++ [Transport.EvClose])
      (Transport.connect Transport.constructor) = Some c ∧
    Transport.scheduled c = [1000; 1500; 2250; 3375; Qred 5062.5]%Q ∧
    Transport.reconnectAttempts c = 5%nat ∧ Transport.sockets c = 6%nat ∧
    Transport.pending c = 0%nat ∧ Transport.isConnected c = false ∧
    Transport.run (λ _, "{}") 0
      [Transport.EvClose; Transport.EvTimer; Transport.EvSend JNull] c
    = Some c' ∧
    Transport.scheduled c' = Transport.scheduled c ∧
    Transport.sockets c' = Transport.sockets c ∧
    Transport.pending c' = 0%nat ∧ Transport.isConnected c' = false.
Proof.
  assert (Hfirst : [Transport.EvOpen] = [] ∨
                   [Transport.EvOpen] = [Transport.EvOpen])
    by (right; reflexivity).
  assert (Htr : Forall (λ ev, Transport.is_open ev = false)
                  [Transport.EvClose; Transport.EvTimer; Transport.EvSend JNull])
    by (repeat constructor).
  split; [exact Hfirst|]. split; [exact Htr|].
  exact (backoff_schedule_then_parked (λ _, "{}") 0 [Transport.EvOpen]
           [Transport.EvClose; Transport.EvTimer; Transport.EvSend JNull]
           Hfirst Htr).
Defined.

Lemma queued_messages_flush_in_order_witness :
  let tr := [Transport.EvSend (JStr "a"); Transport.EvTimer;
             Transport.EvSend (JStr "b"); Transport.EvPing 5;
             Transport.EvSend (JStr "c")] in
  let c := Transport.sample_waiting in
  Transport.connected c = false ∧
  Forall (λ ev, Transport.is_open ev = false) tr ∧
  (length (Transport.messageQueue c ++ Transport.sends tr) ≤ 3)%nat ∧
  ∃ c1 c2,
    Transport.run (λ _, "{}") 3 tr c = Some c1 ∧
    Transport.messageQueue c1 = Transport.messageQueue c ++ Transport.sends tr ∧
    Transport.sent c1 = Transport.sent c ∧
    Transport.run (λ _, "{}") 3 (tr ++ [Transport.EvOpen]) c = Some c2 ∧
    Transport.sent c2
    = Transport.sent c ++
      ((λ _, "{}") <$> (Transport.messageQueue c ++ Transport.sends tr)) ∧
    Transport.messageQueue c2 = [] ∧
    Transport.connected c2 = true.
Proof.
  intros tr c.
  assert (Hc : Transport.connected c = false) by reflexivity.
  assert (Htr : Forall (λ ev, Transport.is_open ev = false) tr)
    by (repeat constructor).
  assert (Hfuel : (length (Transport.messageQueue c ++ Transport.sends tr) ≤ 3)%nat)
    by (vm_compute; lia).
  split; [exact Hc|]. split; [exact Htr|]. split; [exact Hfuel|].
  exact (queued_messages_flush_in_order (λ _, "{}") 3 tr c Hc Htr Hfuel).
Defined.

Lemma disconnect_only_closes_channel_witness :
  let c := Transport.sample_connected in
  let used_up :=
    Transport.set_backoff 5 (Transport.reconnectDelay c) c in
  ((Transport.reconnectAttempts c < Transport.maxReconnectAttempts c)%nat ∧
   Transport.disconnect c
   = Transport.set_ws (Transport.close <$> Transport.ws c) c ∧
   ∃ c1 c2,
     Transport.step (λ _, "{}") 0 Transport.EvClose (Transport.disconnect c)
     = Some c1 ∧
     Transport.isConnected c1 = false ∧
     Transport.scheduled c1
     = Transport.scheduled c ++ [Transport.reconnectDelay c] ∧
     Transport.pending c1 = S (Transport.pending c) ∧
     Transport.step (λ _, "{}") 0 Transport.EvTimer c1 = Some c2 ∧
     Transport.ws c2 = Some CONNECTING ∧
     Transport.sockets c2 = S (Transport.sockets c)) ∧
  ((Transport.maxReconnectAttempts used_up
    ≤ Transport.reconnectAttempts used_up)%nat ∧
   Transport.pending used_up = 0%nat ∧
   Forall (λ ev, Transport.is_open ev = false)
     [Transport.EvTimer; Transport.EvSend JNull; Transport.EvClose] ∧
   ∃ c1 c',
     Transport.step (λ _, "{}") 0 Transport.EvClose
       (Transport.disconnect used_up) = Some c1 ∧
     Transport.isConnected c1 = false ∧
     Transport.pending c1 = 0%nat ∧
     Transport.run (λ _, "{}") 0
       [Transport.EvTimer; Transport.EvSend JNull; Transport.EvClose] c1
     = Some c' ∧
     Transport.parked c' ∧
     Transport.sockets c' = Transport.sockets used_up).
Proof.
  intros c used_up.
  assert (Hleft : (Transport.reconnectAttempts c
                   < Transport.maxReconnectAttempts c)%nat)
    by (vm_compute; lia).
  assert (Hup : (Transport.maxReconnectAttempts used_up
                 ≤ Transport.reconnectAttempts used_up)%nat)
    by (vm_compute; lia).
  assert (Hpending : Transport.pending used_up = 0%nat) by reflexivity.
  assert (Htr : Forall (λ ev, Transport.is_open ev = false)
                  [Transport.EvTimer; Transport.EvSend JNull;
                   Transport.EvClose])
    by (repeat constructor).
  split.
  - split; [exact Hleft|].
    destruct (disconnect_only_closes_channel (λ _, "{}") 0 c)
      as (Hdis & c1 & Hclose & Hoff & Hyes & _).
    split; [exact Hdis|].
    destruct (Hyes Hleft) as (Hsch & Hp & c2 & Htimer & Hws & Hk).
    exists c1, c2. repeat (split; [assumption|]). assumption.
  - split; [exact Hup|]. split; [exact Hpending|]. split; [exact Htr|].
    destruct (disconnect_only_closes_channel (λ _, "{}") 0 used_up)
      as (_ & c1 & Hclose & Hoff & _ & Hno).
    destruct (Hno Hup) as (_ & Hp & Hparked).
    destruct (Hparked Hpending _ Htr) as (c' & Hrun & Hpk & _ & Hk).
    exists c1, c'. split; [exact Hclose|]. split; [exact Hoff|].
    split; [by rewrite Hp|]. split; [exact Hrun|]. split; assumption.
Defined.

(** C9, as stated, fails.  A connected transport that is told to disconnect
    handles the close of its channel like any other close: it sets a
    reconnect timer, and when the timer fires a second socket is created.
    And a transport that is waiting for its reconnect timer when it is told
    to disconnect still reconnects when the timer fires. *)
Lemma disconnect_does_not_stop_reconnect :
  Transport.run (λ _, "{}") 0 [Transport.EvOpen]
    (Transport.connect Transport.constructor)
  = Some Transport.sample_connected ∧
  ¬ Transport.disconnect_is_final (λ _, "{}") Transport.sample_connected ∧
  Transport.run (λ _, "{}") 0 [Transport.EvClose]
    (Transport.connect Transport.constructor)
  = Some Transport.sample_waiting ∧
  ¬ Transport.disconnect_is_final (λ _, "{}") Transport.sample_waiting.
Proof.
  split; [reflexivity|]. split; [|split; [reflexivity|]].
  - intros Hfinal.
    specialize (Hfinal 0%nat [Transport.EvClose; Transport.EvTimer] _ eq_refl).
    vm_compute in Hfinal. discriminate Hfinal.
  - intros Hfinal.
    specialize (Hfinal 0%nat [Transport.EvTimer] _ eq_refl).
    vm_compute in Hfinal. discriminate Hfinal.
Qed.

(** * Further properties *)

(** ** The operation log under appends and undos *)

Section LogCallsFacts.
Import DrawingState.

Implicit Types (s : state) (r : loc) (h : loc → operation) (cs : list call).

Lemma run_calls_snoc cs c s :
  run_calls (cs ++ [c]) s = apply_call c (run_calls cs s).
Proof. unfold run_calls. by rewrite foldl_app. Qed.

Lemma appended_snoc_Append cs r : appended (cs ++ [Append r]) = appended cs ++ [r].
Proof. unfold appended. by rewrite omap_app. Qed.

Lemma appended_snoc_Undo cs u : appended (cs ++ [Undo u]) = appended cs.
Proof. unfold appended. by rewrite omap_app, app_nil_r. Qed.

(** [undo] touches neither the objects nor the counter, and what it leaves
    of the log is the log with one position taken out, or the whole log. *)
Lemma undo_frame u s :
  heap (undo u s).2 = heap s ∧
  this_version (undo u s).2 = this_version s ∧
  (operations (undo u s).2 = operations s ∨
   ∃ i, (i < length (operations s))%nat ∧
        operations (undo u s).2 = delete i (operations s)).
Proof.
  unfold undo.
  destruct (find_last _ _ _ _) as [i|]; [|by auto].
  destruct (operations s !! i) as [r|] eqn:Hr; [|by auto].
  simpl. repeat split. right. exists i. split; [|done].
  by eapply lookup_lt_Some.
Qed.

Lemma StronglySorted_delete (vs : list Z) i :
  StronglySorted Z.lt vs → StronglySorted Z.lt (delete i vs).
Proof.
  intros Hs. revert i. induction Hs as [|v vs Hs IH Hall]; intros i.
  - destruct i; constructor.
  - destruct i as [|i]; simpl; [done|]. constructor; [apply IH|].
    by apply Forall_delete.
Qed.

Lemma StronglySorted_lt_NoDup (vs : list Z) :
  StronglySorted Z.lt vs → NoDup vs.
Proof.
  induction 1 as [|v vs Hs IH Hall]; constructor; [|done].
  intros Hin. eapply Forall_forall in Hall; [|exact Hin]. lia.
Qed.

Lemma filter_none_true (P : loc → Prop) `{∀ r, Decision (P r)} (l : list loc) :
  Forall (λ r, ¬ P r) l → filter P l = [].
Proof.
  induction 1 as [|r l HP _ IH]; [done|].
  by rewrite filter_cons, decide_False.
Qed.

(** The invariant behind the next theorems, on the versions themselves. *)
Lemma run_calls_versions h cs :
  NoDup (appended cs) →
  let s := run_calls cs (constructor h) in
  (∃ vs : list Z,
     versions s = Some <$> vs ∧ StronglySorted Z.lt vs ∧
     Forall (λ v, 1 ≤ v ≤ this_version s) vs) ∧
  operations s `sublist_of` appended cs ∧
  this_version s = Z.of_nat (length (appended cs)).
Proof.
  induction cs as [|c cs IH] using rev_ind; intros Hnd s.
  { split; [exists []; by repeat constructor|]. by split. }
  subst s. rewrite run_calls_snoc. destruct c as [r|u].
  - rewrite appended_snoc_Append in *.
    apply NoDup_app in Hnd as (Hnd & Hfresh & _).
    destruct (IH Hnd) as ((vs & Hvs & Hsorted & Hrange) & Hsub & Hcount).
    set (s := run_calls cs (constructor h)) in *.
    assert (Hnew : r ∉ operations s).
    { intros Hin. apply (Hfresh r); [|by apply list_elem_of_singleton].
      eapply elem_of_sublist; done. }
    cbn [apply_call]. split; [|split].
    + exists (vs ++ [this_version s + 1]). split; [|split].
      * rewrite addOperation_versions_fresh by done.
        by rewrite Hvs, fmap_app.
      * apply StronglySorted_app_2; [|done|by repeat constructor].
        intros v v' Hv ->%list_elem_of_singleton.
        eapply Forall_forall in Hrange; [|exact Hv]. lia.
      * simpl. apply Forall_app. split; [|repeat constructor; lia].
        eapply Forall_impl; [exact Hrange|]. simpl. intros; lia.
    + simpl. by apply sublist_app.
    + simpl. rewrite Hcount, length_app. simpl. lia.
  - rewrite appended_snoc_Undo in *.
    destruct (IH Hnd) as ((vs & Hvs & Hsorted & Hrange) & Hsub & Hcount).
    set (s := run_calls cs (constructor h)) in *. cbn [apply_call].
    destruct (undo_frame u s) as (Hheap & Hver & [Hops | (i & Hi & Hops)]).
    + split; [|split]; [|by rewrite Hops|by rewrite Hver].
      exists vs. unfold versions, version_of. rewrite Hheap, Hops, Hver. done.
    + split; [|split]; [| |by rewrite Hver].
      * exists (delete i vs). unfold versions, version_of.
        rewrite Hheap, Hops, Hver. split; [|split].
        -- rewrite list_fmap_delete. unfold versions, version_of in Hvs.
           by rewrite Hvs, list_fmap_delete.
        -- by apply StronglySorted_delete.
        -- by apply Forall_delete.
      * rewrite Hops. etrans; [apply sublist_delete|done].
Qed.

Lemma versions_Forall s (vs : list Z) (P : Z → Prop) :
  versions s = Some <$> vs → Forall P vs →
  Forall (λ r, ∃ n, version_of s r = Some n ∧ P n) (operations s).
Proof.
  unfold versions. generalize (operations s). intros l. revert vs.
  induction l as [|r l IH]; intros [|v vs] Hvs Hall;
    [constructor|constructor|discriminate Hvs|].
  injection Hvs as Hr Hvs. apply Forall_cons in Hall as [Hv Hall].
  constructor; [by eauto|by eapply IH].
Qed.

(** X3: whatever the interleaving of appends and undos, as long as no object
    is appended twice, the log stays sorted by strictly increasing version,
    [getOperationsAfter] stays exact, every version lies between 1 and the
    counter, and the counter is the number of appends so far: an undo leaves
    a gap, and the version of a removed entry is not given out again. *)
Theorem calls_keep_log_sorted h cs :
  NoDup (appended cs) →
  let s := run_calls cs (constructor h) in
  strictly_increasing s ∧ (∀ v, after_exact v s) ∧
  versions_in_range s ∧
  this_version s = Z.of_nat (length (appended cs)) ∧
  operations s `sublist_of` appended cs.
Proof.
  intros Hnd s.
  destruct (run_calls_versions h cs Hnd)
    as ((vs & Hvs & Hsorted & Hrange) & Hsub & Hcount).
  fold s in Hvs, Hrange, Hsub, Hcount.
  assert (Hinc : strictly_increasing s).
  { exists vs. split; [done|]. split; [done|]. by apply StronglySorted_lt_NoDup. }
  split; [done|]. split; [|split; [|by split]].
  - intros v. by apply strictly_increasing_after_exact.
  - by eapply versions_Forall.
Qed.

(** X4: on such a log, asking for everything after a version below 1 returns
    the whole log, and asking for everything after the current counter (or
    beyond) returns nothing. *)
Theorem after_bounds h cs :
  NoDup (appended cs) →
  let s := run_calls cs (constructor h) in
  (∀ v, v < 1 → getOperationsAfter v s = operations s) ∧
  (∀ v, this_version s ≤ v → getOperationsAfter v s = []).
Proof.
  intros Hnd s.
  destruct (run_calls_versions h cs Hnd) as ((vs & Hvs & _ & Hrange) & _ & _).
  fold s in Hvs, Hrange.
  pose proof (versions_Forall s vs _ Hvs Hrange) as Hall.
  split; intros v Hv; unfold getOperationsAfter.
  - apply filter_all_true. eapply Forall_impl; [exact Hall|]. simpl.
    intros r (n & Hn & ?). unfold version_gt. unfold version_of in Hn.
    rewrite Hn. lia.
  - apply filter_none_true. eapply Forall_impl; [exact Hall|]. simpl.
    intros r (n & Hn & ?). unfold version_gt. unfold version_of in Hn.
    rewrite Hn. lia.
Qed.

Lemma NoDup_lookup_not_in_delete (l : list loc) i r :
  NoDup l → l !! i = Some r → r ∉ delete i l.
Proof.
  intros Hnd. revert i. induction Hnd as [|x l Hx Hnd IH]; intros i Hi; [done|].
  destruct i as [|i]; simpl in *.
  - by injection Hi as ->.
  - apply not_elem_of_cons. split; [|by apply IH].
    intros ->. apply Hx. by eapply list_elem_of_lookup_2.
Qed.

(** X5: when [undo(u)] returns an operation, that operation is gone from the
    log (so no [getOperationsAfter] returns it any more), the log is shorter
    by one, and every object keeps the version it had: nothing is
    renumbered.  The log must not hold the same object twice. *)
Theorem undo_removed_is_gone u s r :
  NoDup (operations s) →
  (undo u s).1 = Some r →
  let s' := (undo u s).2 in
  (r ∈ operations s ∧ userId (heap s r) = Some u ∧
   (r ∉ operations s') ∧ (∀ v, r ∉ getOperationsAfter v s') ∧
   (operations s' `sublist_of` operations s) ∧
   length (operations s) = S (length (operations s')) ∧
   (∀ r', version_of s' r' = version_of s r') ∧
   this_version s' = this_version s).
Proof.
  intros Hnd. unfold undo.
  destruct (find_last _ _ _ _) as [i|] eqn:Hfind; [|done].
  destruct (operations s !! i) as [r0|] eqn:Hr; [|done].
  simpl. intros [= ->].
  destruct (log_find_last_Some _ _ _ _ Hfind) as (_ & r' & Hr' & Hu & _).
  assert (r' = r) as -> by congruence.
  assert (Hgone : r ∉ delete i (operations s)).
  { by apply NoDup_lookup_not_in_delete. }
  split; [by eapply list_elem_of_lookup_2|]. split; [done|].
  split; [done|]. split; [|split; [|split; [|done]]].
  - intros v Hin. apply Hgone. unfold getOperationsAfter in Hin. simpl in Hin.
    by apply list_elem_of_filter in Hin as [_ ?].
  - apply sublist_delete.
  - rewrite length_delete by eauto. apply lookup_lt_Some in Hr. lia.
Qed.

Lemma run_calls_operationId h cs r :
  operationId (heap (run_calls cs (constructor h)) r) = operationId (h r).
Proof.
  induction cs as [|c cs IH] using rev_ind; [done|].
  rewrite run_calls_snoc. destruct c as [r0|u]; cbn [apply_call].
  - simpl. destruct (decide (r0 = r)) as [->|Hne].
    + by rewrite fn_lookup_insert.
    + by rewrite fn_lookup_insert_ne.
  - by destruct (undo_frame u (run_calls cs (constructor h))) as (-> & _).
Qed.

Lemma filter_other_ids_delete (f : loc → option string) (l : list loc) i r :
  NoDup (f <$> l) → l !! i = Some r →
  filter (λ r', f r' ≠ f r) l = delete i l.
Proof.
  revert i. induction l as [|x l IH]; intros i Hnd Hi; [done|].
  simpl in Hnd. apply NoDup_cons in Hnd as [Hx Hnd].
  destruct i as [|i]; simpl in *.
  - injection Hi as ->. rewrite filter_cons, decide_False by (by intros []).
    apply filter_all_true. apply Forall_forall. intros y Hy Heq.
    apply Hx. rewrite <- Heq. by apply list_elem_of_fmap_2.
  - rewrite filter_cons, decide_True; [by rewrite (IH i)|].
    intros Heq. apply Hx. rewrite Heq.
    apply list_elem_of_fmap_2. by eapply list_elem_of_lookup_2.
Qed.

(** X6: when the objects appended carry pairwise different operation ids,
    the undo stack is at all times the log itself, and the redo stack is
    empty: [undo] takes the same entry out of both, and nothing ever puts an
    entry on the redo stack. *)
Theorem undo_stack_mirrors_log h cs :
  NoDup ((λ r, operationId (h r)) <$> appended cs) →
  let s := run_calls cs (constructor h) in
  undoStack s = operations s ∧ redoStack s = [].
Proof.
  induction cs as [|c cs IH] using rev_ind; intros Hids s; [done|].
  subst s. rewrite run_calls_snoc. destruct c as [r|u]; cbn [apply_call].
  - rewrite appended_snoc_Append, fmap_app in Hids.
    apply NoDup_app in Hids as (Hids & _ & _).
    destruct (IH Hids) as [Hstack _]. simpl. by rewrite Hstack.
  - rewrite appended_snoc_Undo in Hids.
    destruct (IH Hids) as [Hstack Hredo].
    pose proof (NoDup_fmap_1 _ _ Hids) as Hnd.
    destruct (run_calls_versions h cs Hnd) as (_ & Hsub & _).
    set (s := run_calls cs (constructor h)) in *.
    unfold undo.
    destruct (find_last _ _ _ _) as [i|]; [|done].
    destruct (operations s !! i) as [r|] eqn:Hr; [|done].
    simpl. split; [|done]. rewrite Hstack.
    apply (filter_other_ids_delete (λ r', operationId (heap s r'))); [|done].
    eapply sublist_NoDup; [exact Hids|].
    erewrite list_fmap_ext; [by apply fmap_sublist|].
    intros ? r' _. apply run_calls_operationId.
Qed.

End LogCallsFacts.

Lemma log_undo_removes_last_witness :
  let s := DrawingState.appendAll [0; 1; 2]%nat
             (DrawingState.constructor DrawingState.sample_heap) in
  DrawingState.authored "alice" s ∧
  ∃ i r,
    DrawingState.undo "alice" s
    = (Some r,
       {| DrawingState.heap := DrawingState.heap s;
          DrawingState.operations := delete i (DrawingState.operations s);
          DrawingState.undoStack :=
            filter (λ r', DrawingState.operationId (DrawingState.heap s r')
                          ≠ DrawingState.operationId (DrawingState.heap s r))
                   (DrawingState.undoStack s);
          DrawingState.redoStack := DrawingState.redoStack s;
          DrawingState.this_version := DrawingState.this_version s |}) ∧
    DrawingState.operations s !! i = Some r ∧
    DrawingState.userId (DrawingState.heap s r) = Some "alice" ∧
    ∀ j r', (i < j)%nat → DrawingState.operations s !! j = Some r' →
            DrawingState.userId (DrawingState.heap s r') ≠ Some "alice".
Proof.
  intros s.
  assert (Hauth : DrawingState.authored "alice" s)
    by (apply (bool_decide_unpack _); vm_compute; exact I).
  split; [exact Hauth|].
  exact (log_undo_removes_last s "alice" Hauth).
Defined.

Lemma calls_keep_log_sorted_witness :
  let cs := [DrawingState.Append 0%nat; DrawingState.Append 1%nat;
             DrawingState.Undo "alice"; DrawingState.Append 2%nat] in
  let s := DrawingState.run_calls cs
             (DrawingState.constructor DrawingState.sample_heap) in
  NoDup (DrawingState.appended cs) ∧
  DrawingState.versions s = [Some 2; Some 3] ∧
  DrawingState.strictly_increasing s ∧
  (∀ v, DrawingState.after_exact v s) ∧
  DrawingState.versions_in_range s ∧
  DrawingState.this_version s
  = Z.of_nat (length (DrawingState.appended cs)) ∧
  DrawingState.operations s `sublist_of` DrawingState.appended cs.
Proof.
  intros cs s.
  assert (Hnd : NoDup (DrawingState.appended cs))
    by (apply (bool_decide_unpack _); vm_compute; exact I).
  split; [exact Hnd|]. split; [reflexivity|].
  exact (calls_keep_log_sorted DrawingState.sample_heap cs Hnd).
Defined.

Lemma after_bounds_witness :
  let cs := [DrawingState.Append 0%nat; DrawingState.Append 1%nat;
             DrawingState.Undo "alice"; DrawingState.Append 2%nat] in
  let s := DrawingState.run_calls cs
             (DrawingState.constructor DrawingState.sample_heap) in
  NoDup (DrawingState.appended cs) ∧
  (∀ v, v < 1 →
     DrawingState.getOperationsAfter v s = DrawingState.operations s) ∧
  (∀ v, DrawingState.this_version s ≤ v →
     DrawingState.getOperationsAfter v s = []).
Proof.
  intros cs s.
  assert (Hnd : NoDup (DrawingState.appended cs))
    by (apply (bool_decide_unpack _); vm_compute; exact I).
  split; [exact Hnd|].
  exact (after_bounds DrawingState.sample_heap cs Hnd).
Defined.

Lemma undo_removed_is_gone_witness :
  let s := DrawingState.appendAll [0; 1; 2]%nat
             (DrawingState.constructor DrawingState.sample_heap) in
  let s' := (DrawingState.undo "bob" s).2 in
  NoDup (DrawingState.operations s) ∧
  (DrawingState.undo "bob" s).1 = Some 1%nat ∧
  (1%nat ∈ DrawingState.operations s) ∧
  DrawingState.userId (DrawingState.heap s 1%nat) = Some "bob" ∧
  (1%nat ∉ DrawingState.operations s') ∧
  (∀ v, 1%nat ∉ DrawingState.getOperationsAfter v s') ∧
  (DrawingState.operations s' `sublist_of` DrawingState.operations s) ∧
  length (DrawingState.operations s) = S (length (DrawingState.operations s')) ∧
  (∀ r', DrawingState.version_of s' r' = DrawingState.version_of s r') ∧
  DrawingState.this_version s' = DrawingState.this_version s.
Proof.
  intros s s'.
  assert (Hnd : NoDup (DrawingState.operations s))
    by (apply (bool_decide_unpack _); vm_compute; exact I).
  assert (Hres : (DrawingState.undo "bob" s).1 = Some 1%nat) by reflexivity.
  split; [exact Hnd|]. split; [exact Hres|].
  exact (undo_removed_is_gone "bob" s 1%nat Hnd Hres).
Defined.

Lemma undo_stack_mirrors_log_witness :
  let cs := [DrawingState.Append 0%nat; DrawingState.Append 1%nat;
             DrawingState.Undo "alice"; DrawingState.Append 2%nat] in
  let s := DrawingState.run_calls cs
             (DrawingState.constructor DrawingState.sample_heap) in
  NoDup ((λ r, DrawingState.operationId (DrawingState.sample_heap r))
         <$> DrawingState.appended cs) ∧
  DrawingState.undoStack s = DrawingState.operations s ∧
  DrawingState.redoStack s = [].
Proof.
  intros cs s.
  assert (Hids : NoDup ((λ r, DrawingState.operationId
                               (DrawingState.sample_heap r))
                        <$> DrawingState.appended cs))
    by (apply (bool_decide_unpack _); vm_compute; exact I).
  split; [exact Hids|].
  exact (undo_stack_mirrors_log DrawingState.sample_heap cs Hids).
Defined.

(** ** The dispatcher, case by case *)

Section DispatchCases.
Import Server.

Variable JSON_stringify : json → string.

Implicit Types (s : state) (m : registry) (u v : string) (c : client)
  (e : env).

Lemma update_sockets u f m :
  (∀ c, ws (f c) = ws c) → sockets (update u f m) = sockets m.
Proof.
  intros Hf. unfold sockets. induction m as [|[k c] m IH]; simpl; [done|].
  case_decide; simpl; [by rewrite Hf|]. f_equal. apply IH.
Qed.

Lemma send_each_sockets data X m m' :
  sockets m = sockets m' → send_each data X m = send_each data X m'.
Proof.
  unfold sockets. revert m'.
  induction m as [|[k c] m IH]; intros [|[k' c'] m'] Heq; try done.
  simpl in *. injection Heq as -> Hws Heq. rewrite Hws.
  case_decide; [f_equal|]; by apply IH.
Qed.

Lemma get_update_eq u f m c :
  get u m = Some c → get u (update u f m) = Some (f c).
Proof.
  induction m as [|[k c'] m IH]; simpl; [done|].
  case_decide; simpl.
  - intros [= ->]. by rewrite decide_True.
  - intros Hget. rewrite decide_False by done. by apply IH.
Qed.

Lemma get_update_ne u v f m :
  v ≠ u → get v (update u f m) = get v m.
Proof.
  intros Hne. induction m as [|[k c'] m IH]; simpl; [done|].
  destruct (decide (k = u)) as [->|Hk]; simpl.
  - by rewrite !decide_False by done.
  - by rewrite IH.
Qed.

Lemma sockets_keys m : (sockets m).*1 = m.*1.
Proof. unfold sockets. rewrite <- list_fmap_compose. done. Qed.

Lemma elem_of_send_each_sockets data X m v d :
  (v, d) ∈ send_each data X m → (v, OPEN) ∈ sockets m.
Proof.
  intros (_ & _ & c & Hin & Hopen)%elem_of_send_each.
  unfold sockets. rewrite <- Hopen.
  by apply (list_elem_of_fmap_2 (λ kc, (kc.1, ws kc.2)) _ (v, c)).
Qed.

(** X7: whatever a connection sends, the server's log only grows, by one
    entry at most, the registry keeps its keys and the state of its
    sockets, and whatever is sent goes to a registered connection whose
    socket is open. *)
Theorem message_only_appends e u (parsed : option json) s :
  let s' := (on_message JSON_stringify e u parsed s).1 in
  let sent := (on_message JSON_stringify e u parsed s).2 in
  (operations s `prefix_of` operations s') ∧
  (length (operations s') ≤ S (length (operations s)))%nat ∧
  sockets (clients s') = sockets (clients s) ∧
  ∀ v d, (v, d) ∈ sent → (v, OPEN) ∈ sockets (clients s).
Proof.
  assert (Hnil : ∀ v d, (v, d) ∈ @nil delivery →
                        (v, OPEN) ∈ sockets (clients s))
    by (by intros v d ?%elem_of_nil).
  assert (Hgrow : ∀ o : obj,
            operations s `prefix_of` operations s ++ [o] ∧
            (length (operations s ++ [o]) ≤ S (length (operations s)))%nat).
  { intros o. split; [by apply prefix_app_r|]. rewrite length_app. simpl. lia. }
  cbv zeta. unfold on_message.
  destruct parsed as [message|]; cbn [fst snd clients operations default from_option id];
    [|by auto].
  unfold handleMessage.
  destruct (get u (clients s)); cbn [fst snd clients operations default from_option id]; [|by auto].
  destruct (prop "type" message) as [ty|]; cbn [fst snd clients operations default from_option id]; [|by auto].
  destruct (is_string "draw" ty); cbn [fst snd clients operations default from_option id].
  { destruct (Hgrow (<["operationId" := JStr (generateOperationId e)]>
                    (<["timestamp" := JNum (now e)]>
                    (<["userId" := JStr u]>
                    (spread (default None (prop "data" message))))))) as [? ?].
    repeat split; [done..|]. intros v d. apply elem_of_send_each_sockets. }
  destruct (is_string "cursor" ty); cbn [fst snd clients operations default from_option id].
  { repeat split; [done|lia|by apply update_sockets|].
    intros v d Hin%elem_of_send_each_sockets. cbn [clients] in Hin.
    by rewrite update_sockets in Hin. }
  destruct (is_string "clear" ty); cbn [fst snd clients operations default from_option id].
  { destruct (Hgrow (<["type" := JStr "clear"]>
                    (<["userId" := JStr u]>
                    (<["timestamp" := JNum (now e)]>
                    (<["operationId" := JStr (generateOperationId e)]> ∅)))))
      as [? ?].
    repeat split; [done..|]. intros v d. apply elem_of_send_each_sockets. }
  destruct (is_string "undo" ty); cbn [fst snd clients operations default from_option id]; [|by auto].
  unfold handleUndo.
  destruct (find_last u (operations s) (length (operations s))); [|by auto].
  destruct (operations s !! n) as [undoneOp|]; [|by auto]. cbn [fst snd clients operations default from_option id].
  destruct (Hgrow (set_opt "targetOperationId" (undoneOp !! "operationId")
                    (<["type" := JStr "undo"]>
                    (<["userId" := JStr u]>
                    (<["timestamp" := JNum (now e)]>
                    (<["operationId" := JStr (generateOperationId e)]> ∅))))))
    as [? ?].
  repeat split; [done..|]. intros v d. apply elem_of_send_each_sockets.
Qed.

(** X8: input that the server drops without a trace: a text that does not
    parse, the value [null], any message of a connection that is not in the
    registry, and a message whose [type] has no case in the dispatcher.
    Nothing is stored, nothing is sent, and nothing is reported to the
    sender. *)
Theorem unusable_input_is_dropped e u (parsed : option json) s :
  parsed = None ∨ parsed = Some JNull ∨ get u (clients s) = None ∨
  (∃ message ty, parsed = Some message ∧
                 prop "type" message = Some ty ∧ recognised ty = false) →
  on_message JSON_stringify e u parsed s = (s, []).
Proof.
  unfold on_message, handleMessage.
  intros [-> | [-> | [Hget | (message & ty & -> & Hty & Hno)]]]; [done| | |].
  - by destruct (get u (clients s)).
  - destruct parsed; [|done]. by rewrite Hget.
  - destruct (get u (clients s)); [|done]. rewrite Hty.
    unfold recognised in Hno.
    apply orb_false_iff in Hno as [Hno ->].
    apply orb_false_iff in Hno as [Hno ->].
    apply orb_false_iff in Hno as [-> ->]. done.
Qed.

(** X9: a [cursor] message of a registered connection stores the position
    with that connection and with no other, leaves the log alone, and goes
    to the other open connections under the sender's id. *)
Theorem cursor_updates_sender_only e u (d : json) s c :
  get u (clients s) = Some c →
  ∃ s',
    handleMessage JSON_stringify e u (cursor_message d) s
    = Some (s',
            send_each
              (JSON_stringify
                 (JObj (<["data" := d]>
                       (<["type" := JStr "cursor"]>
                       (<["userId" := JStr u]> ∅)))))
              (Some u) (clients s)) ∧
    operations s' = operations s ∧
    get u (clients s') = Some (set_cursor (Some d) c) ∧
    ∀ v, v ≠ u → get v (clients s') = get v (clients s).
Proof.
  intros Hget.
  exists {| clients := update u (set_cursor (Some d)) (clients s);
            operations := operations s |}.
  split; [|split; [done|split]].
  - unfold handleMessage. rewrite Hget.
    change (prop "type" (cursor_message d)) with (Some (Some (JStr "cursor"))).
    cbn [is_string]. rewrite bool_decide_eq_false_2 by done.
    rewrite bool_decide_eq_true_2 by done.
    assert (Hd : default None (prop "data" (cursor_message d)) = Some d).
    { unfold prop, cursor_message. by rewrite lookup_insert_ne, lookup_insert_eq. }
    rewrite Hd. unfold broadcast. cbn [clients set_opt]. do 2 f_equal.
    apply send_each_sockets. by apply update_sockets.
  - by apply get_update_eq.
  - intros v Hv. by apply get_update_ne.
Qed.

(** X10: a [clear] message of a registered connection appends a clear
    operation made of the sender's id, the time and a fresh operation id
    only: whatever else the message carries is ignored.  The operation goes
    to the other open connections. *)
Theorem clear_appends_bare_operation e u (message : obj) s c :
  get u (clients s) = Some c →
  message !! "type" = Some (JStr "clear") →
  let clearOp : obj :=
    <["type" := JStr "clear"]>
    (<["userId" := JStr u]>
    (<["timestamp" := JNum (now e)]>
    (<["operationId" := JStr (generateOperationId e)]> ∅))) in
  handleMessage JSON_stringify e u (JObj message) s
  = Some ({| clients := clients s; operations := operations s ++ [clearOp] |},
          send_each
            (JSON_stringify (JObj (<["type" := JStr "clear"]>
                                  (<["data" := JObj clearOp]> ∅))))
            (Some u) (clients s)).
Proof.
  intros Hget Hty clearOp. unfold handleMessage. rewrite Hget.
  cbn [prop]. rewrite Hty. cbn [is_string].
  by rewrite !bool_decide_eq_false_2, bool_decide_eq_true_2 by done.
Qed.

(** *** The undo handler *)

Lemma server_find_last_Some (ops : list obj) u k i :
  find_last u ops k = Some i →
  (i < k)%nat ∧
  ∃ o, ops !! i = Some o ∧ is_string u (o !! "userId") = true ∧
       ∀ j o', (i < j < k)%nat → ops !! j = Some o' →
               is_string u (o' !! "userId") = false.
Proof.
  induction k as [|k IH]; simpl; [done|].
  destruct (ops !! k) as [o|] eqn:Ho.
  - destruct (is_string u (o !! "userId")) eqn:Hu.
    + intros [= <-]. split; [lia|]. exists o. repeat split; [done..|].
      intros j o' ? _. lia.
    + intros (Hlt & o0 & Ho0 & Hu0 & Hlater)%IH. split; [lia|].
      exists o0. repeat split; [done..|].
      intros j o' Hj Ho'. destruct (decide (j = k)) as [->|Hne].
      * by simplify_eq.
      * apply (Hlater j o'); [lia|done].
  - intros (Hlt & o0 & Ho0 & Hu0 & Hlater)%IH. split; [lia|].
    exists o0. repeat split; [done..|].
    intros j o' Hj Ho'. destruct (decide (j = k)) as [->|Hne].
    * by simplify_eq.
    * apply (Hlater j o'); [lia|done].
Qed.

Lemma server_find_last_is_Some (ops : list obj) u k :
  (∃ i o, (i < k)%nat ∧ ops !! i = Some o ∧
          is_string u (o !! "userId") = true) →
  is_Some (find_last u ops k).
Proof.
  induction k as [|k IH]; simpl; intros (i & o & Hi & Ho & Hu); [lia|].
  destruct (ops !! k) as [o'|] eqn:Ho'.
  - destruct (is_string u (o' !! "userId")) eqn:Hu'; [done|].
    apply IH. exists i, o. repeat split; [|done..].
    destruct (decide (i = k)); [simplify_eq; congruence|lia].
  - apply IH. exists i, o.
    repeat split; [|done..]. destruct (decide (i = k)); [by simplify_eq|lia].
Qed.

Lemma handleUndo_hit e u s :
  authored u s →
  ∃ i (target undoOp : obj),
    handleUndo JSON_stringify e u s
    = ({| clients := clients s; operations := operations s ++ [undoOp] |},
       send_each
         (JSON_stringify (JObj (<["type" := JStr "undo"]>
                               (<["data" := JObj undoOp]> ∅))))
         None (clients s)) ∧
    operations s !! i = Some target ∧
    is_string u (target !! "userId") = true ∧
    (∀ j o, (i < j)%nat → operations s !! j = Some o →
            is_string u (o !! "userId") = false) ∧
    undoOp !! "targetOperationId" = target !! "operationId" ∧
    undoOp !! "type" = Some (JStr "undo") ∧
    undoOp !! "userId" = Some (JStr u) ∧
    undoOp !! "operationId" = Some (JStr (generateOperationId e)).
Proof.
  intros (o0 & [i0 Hi0]%list_elem_of_lookup & Hu0)%Exists_exists.
  destruct (server_find_last_is_Some (operations s) u (length (operations s)))
    as [i Hfind].
  { exists i0, o0. repeat split; [|done..]. by eapply lookup_lt_Some. }
  destruct (server_find_last_Some _ _ _ _ Hfind) as (Hlt & target & Ht & Hu & Hlater).
  exists i, target. eexists. unfold handleUndo. rewrite Hfind, Ht.
  split; [reflexivity|]. split; [done|]. split; [done|]. split.
  { intros j o Hj Ho. apply (Hlater j o); [|done].
    split; [done|]. by eapply lookup_lt_Some. }
  unfold set_opt. destruct (target !! "operationId") as [x|].
  - rewrite lookup_insert_eq. by repeat split.
  - by repeat split.
Qed.

(** X11: when [u] has an entry in the server's log, the undo handler appends
    one undo marker by [u] that names, as its target, the operation id of
    the last entry by [u], and sends the marker to every open connection,
    the sender's included; the target itself stays where it is. *)
Theorem server_undo_marks_last_entry e u s :
  authored u s →
  ∃ i (target undoOp : obj),
    handleUndo JSON_stringify e u s
    = ({| clients := clients s; operations := operations s ++ [undoOp] |},
       send_each
         (JSON_stringify (JObj (<["type" := JStr "undo"]>
                               (<["data" := JObj undoOp]> ∅))))
         None (clients s)) ∧
    operations s !! i = Some target ∧
    is_string u (target !! "userId") = true ∧
    (∀ j o, (i < j)%nat → operations s !! j = Some o →
            is_string u (o !! "userId") = false) ∧
    undoOp !! "targetOperationId" = target !! "operationId" ∧
    undoOp !! "type" = Some (JStr "undo") ∧
    undoOp !! "userId" = Some (JStr u) ∧
    undoOp !! "operationId" = Some (JStr (generateOperationId e)).
Proof. apply handleUndo_hit. Qed.

Lemma find_last_snoc_hit (ops : list obj) (o : obj) u :
  is_string u (o !! "userId") = true →
  find_last u (ops ++ [o]) (length (ops ++ [o])) = Some (length ops).
Proof.
  intros Hu. rewrite length_app, Nat.add_comm. simpl.
  rewrite lookup_app_r, Nat.sub_diag by done. simpl. by rewrite Hu.
Qed.

(** X12: undo does not walk back through the log.  After an undo of [u] has
    appended its marker, the next undo of [u] finds that marker as the last
    entry by [u] and appends a second marker whose target is the first
    marker, not an earlier stroke. *)
Theorem second_undo_targets_first_marker e1 e2 u s :
  authored u s →
  let s1 := (handleUndo JSON_stringify e1 u s).1 in
  let s2 := (handleUndo JSON_stringify e2 u s1).1 in
  ∃ first second : obj,
    operations s2 = operations s ++ [first; second] ∧
    first !! "operationId" = Some (JStr (generateOperationId e1)) ∧
    second !! "targetOperationId" = Some (JStr (generateOperationId e1)) ∧
    second !! "operationId" = Some (JStr (generateOperationId e2)).
Proof.
  intros Hauth s1 s2.
  destruct (handleUndo_hit e1 u s Hauth)
    as (i & target & first & Hundo & _ & _ & _ & _ & _ & Huser & Hid).
  assert (Hs1 : operations s1 = operations s ++ [first])
    by (subst s1; by rewrite Hundo).
  assert (Hu : is_string u (first !! "userId") = true).
  { rewrite Huser. simpl. by apply bool_decide_eq_true_2. }
  subst s2. unfold handleUndo at 1.
  rewrite Hs1, find_last_snoc_hit by done.
  rewrite lookup_app_r, Nat.sub_diag by done. simpl.
  eexists first, _. split; [by rewrite <- app_assoc|]. split; [done|].
  rewrite Hid. simpl. split.
  - by rewrite lookup_insert_eq.
  - by rewrite !lookup_insert_ne, lookup_insert_eq by done.
Qed.

End DispatchCases.

(** ** Connections coming and going *)

Section LifecycleFacts.
Import Server.

Variable JSON_stringify : json → string.

Implicit Types (s : state) (m : registry) (u v : string) (c : client)
  (X : option string).

Lemma get_Map_set_eq u c m : get u (Map_set u c m) = Some c.
Proof.
  induction m as [|[k c'] m IH]; simpl; [by rewrite decide_True|].
  case_decide; simpl; [by rewrite decide_True|by rewrite decide_False].
Qed.

Lemma get_Map_set_ne u v c m : v ≠ u → get v (Map_set u c m) = get v m.
Proof.
  intros Hne. induction m as [|[k c'] m IH]; simpl.
  - by rewrite decide_False.
  - destruct (decide (k = u)) as [->|Hk]; simpl.
    + by rewrite !decide_False by done.
    + by rewrite IH.
Qed.

Lemma elem_of_Map_set_ne u v c c' m :
  v ≠ u → (v, c') ∈ Map_set u c m ↔ (v, c') ∈ m.
Proof.
  intros Hne. induction m as [|[k c0] m IH]; simpl.
  - split; [|by intros ?%elem_of_nil].
    intros [[= ? ?]|?%elem_of_nil]%elem_of_cons; done.
  - destruct (decide (k = u)) as [->|Hk]; rewrite !elem_of_cons.
    + split; (intros [[= ? ?]|?]; [done|by right]).
    + by rewrite IH.
Qed.

Lemma get_elem_of u c m : get u m = Some c → (u, c) ∈ m.
Proof.
  induction m as [|[k c'] m IH]; simpl; [done|].
  case_decide; [intros [= ->]; subst; left|right; by apply IH].
Qed.

Lemma get_Map_delete_eq u m : get u (Map_delete u m) = None.
Proof.
  unfold Map_delete. induction m as [|[k c] m IH]; [done|].
  rewrite filter_cons. simpl. case_decide; simpl; [|done].
  by rewrite decide_False.
Qed.

Lemma get_Map_delete_ne u v m : v ≠ u → get v (Map_delete u m) = get v m.
Proof.
  intros Hne. unfold Map_delete. induction m as [|[k c] m IH]; [done|].
  rewrite filter_cons. simpl. destruct (decide (k ≠ u)) as [Hk|Hk]; simpl.
  - by rewrite IH.
  - apply dec_stable in Hk as ->. by rewrite decide_False.
Qed.

Lemma filter_recipient_excluded data u m :
  filter (λ d : delivery, d.1 = u) (send_each data (Some u) m) = [].
Proof.
  induction m as [|[k c] m IH]; simpl; [done|].
  case_decide as Hk; [|done]. destruct Hk as [Hk _].
  rewrite filter_cons, decide_False; [done|]. simpl. congruence.
Qed.

Lemma filter_recipient_absent data X v m :
  v ∉ m.*1 → filter (λ d : delivery, d.1 = v) (send_each data X m) = [].
Proof.
  induction m as [|[k c] m IH]; simpl; [done|].
  intros [Hk Hm]%not_elem_of_cons. case_decide; [|by apply IH].
  rewrite filter_cons, decide_False by (simpl; congruence). by apply IH.
Qed.

(** An open, registered connection that is not the excluded one receives a
    broadcast once. *)
Lemma filter_recipient_open data X v c m :
  NoDup m.*1 → (v, c) ∈ m → ws c = OPEN → Some v ≠ X →
  filter (λ d : delivery, d.1 = v) (send_each data X m) = [(v, data)].
Proof.
  intros Hnd Hin Hopen Hx. induction m as [|[k c'] m IH]; simpl.
  { by apply elem_of_nil in Hin. }
  simpl in Hnd. apply NoDup_cons in Hnd as [Hk Hnd].
  apply elem_of_cons in Hin as [[= <- <-]|Hin].
  - rewrite decide_True by done. rewrite filter_cons, decide_True by done.
    by rewrite filter_recipient_absent.
  - assert (k ≠ v).
    { intros ->. apply Hk. by apply (list_elem_of_fmap_2 fst _ (v, c)). }
    case_decide; [rewrite filter_cons, decide_False by done|]; by apply IH.
Qed.

(** X13: a new connection is put in the registry under its id, with its
    cursor at the origin, and nobody else's entry changes.  The newcomer is
    sent the welcome first, which lists the newcomer too, then the history
    if the log is not empty, and nothing else: not its own [user-joined].
    Every other connection receives a [user-joined] exactly when its socket
    is open. *)
Theorem connection_is_registered_and_announced t u col s :
  let s' := (on_connection JSON_stringify t u col s).1 in
  let sent := (on_connection JSON_stringify t u col s).2 in
  let welcome :=
    (u, JSON_stringify (JObj (welcome_message u col (clients s')))) in
  let history :=
    (u, JSON_stringify
          (JObj (history_message (slice_last 100 (operations s))))) in
  get u (clients s') = Some (new_client t u col) ∧
  (∀ v, v ≠ u → get v (clients s') = get v (clients s)) ∧
  operations s' = operations s ∧
  new_client t u col ∈ (clients s').*2 ∧
  filter (λ d : delivery, d.1 = u) sent
  = welcome :: (if decide (operations s = []) then [] else [history]) ∧
  ∀ v d, v ≠ u →
    ((v, d) ∈ sent ↔
     d = JSON_stringify (JObj (user_joined_message u col)) ∧
     ∃ c, (v, c) ∈ clients s ∧ ws c = OPEN).
Proof.
  cbv zeta. unfold on_connection. cbn [fst snd clients operations].
  split; [apply get_Map_set_eq|].
  split; [intros v Hv; by apply get_Map_set_ne|]. split; [done|].
  split.
  { apply (list_elem_of_fmap_2 snd _ (u, new_client t u col)).
    apply get_elem_of, get_Map_set_eq. }
  split.
  - unfold broadcast. cbn [clients app].
    rewrite filter_cons, decide_True by done. f_equal.
    rewrite filter_app, filter_recipient_excluded. simpl.
    destruct (operations s) as [|o ops]; [done|].
    rewrite decide_True by (simpl; lia). rewrite decide_False by done.
    by rewrite filter_cons, decide_True by done.
  - intros v d Hv. unfold broadcast. cbn [clients app].
    rewrite elem_of_cons, elem_of_app, elem_of_send_each. split.
    + intros [[= ? ?]|[(-> & _ & c & Hin & Hopen)|Hin]]; [done| |].
      * split; [done|]. exists c. by rewrite <- (elem_of_Map_set_ne u v).
      * case_decide; [|by apply elem_of_nil in Hin].
        by apply list_elem_of_singleton in Hin as [= ? ?].
    + intros (-> & c & Hin & Hopen). right. left.
      repeat split; [congruence|]. exists c.
      by rewrite (elem_of_Map_set_ne u v).
Qed.

Lemma slice_last_length {A : Type} (n : nat) (l : list A) :
  length (slice_last n l) = (n `min` length l)%nat.
Proof. unfold slice_last. rewrite length_drop. lia. Qed.

(** X14: the history sent to a newcomer is the part of the log that a
    [slice(-100)] keeps: never more than 100 operations, the most recent
    ones in log order, and the whole log as long as it has at most 100
    entries.  It is the last thing sent on a connection event, and it is
    not sent at all when the log is empty. *)
Theorem history_is_the_last_hundred t u col s :
  let sent := (on_connection JSON_stringify t u col s).2 in
  let history := slice_last 100 (operations s) in
  (length history ≤ 100)%nat ∧
  length history = (100 `min` length (operations s))%nat ∧
  history `suffix_of` operations s ∧
  ((length (operations s) ≤ 100)%nat → history = operations s) ∧
  (operations s ≠ [] →
   last sent = Some (u, JSON_stringify (JObj (history_message history)))) ∧
  (operations s = [] →
   sent = (u, JSON_stringify
                (JObj (welcome_message u col
                         (Map_set u (new_client t u col) (clients s)))))
          :: send_each
               (JSON_stringify (JObj (user_joined_message u col))) (Some u)
               (Map_set u (new_client t u col) (clients s))).
Proof.
  cbv zeta. split; [rewrite slice_last_length; lia|].
  split; [apply slice_last_length|]. split; [apply suffix_drop|].
  split; [|split].
  - intros Hle. unfold slice_last.
    by replace (length (operations s) - 100)%nat with 0%nat by lia.
  - intros Hne. unfold on_connection. cbn [fst snd clients operations].
    rewrite decide_True by (destruct (operations s); [done|simpl; lia]).
    by rewrite !app_assoc, last_snoc.
  - intros Hnil. unfold on_connection. cbn [fst snd clients operations].
    rewrite Hnil. simpl. by rewrite app_nil_r.
Qed.

(** X15: when a connection closes, its entry leaves the registry and nobody
    else's changes, the log stays, and a [user-left] goes to exactly the
    open connections that remain, never to the one that closed.  What is
    still received under that id afterwards is dropped.  The handler has no
    guard: a close under an id that is not in the registry is announced all
    the same. *)
Theorem close_unregisters_and_announces u s :
  let s' := (on_close JSON_stringify u s).1 in
  let sent := (on_close JSON_stringify u s).2 in
  get u (clients s') = None ∧
  (∀ v, v ≠ u → get v (clients s') = get v (clients s)) ∧
  operations s' = operations s ∧
  (∀ v d, (v, d) ∈ sent ↔
     d = JSON_stringify (JObj (user_left_message u)) ∧ v ≠ u ∧
     ∃ c, (v, c) ∈ clients s ∧ ws c = OPEN) ∧
  ∀ e parsed, on_message JSON_stringify e u parsed s' = (s', []).
Proof.
  cbv zeta. unfold on_close. cbn [fst snd clients operations].
  split; [apply get_Map_delete_eq|].
  split; [intros v Hv; by apply get_Map_delete_ne|]. split; [done|].
  split.
  - intros v d. unfold broadcast. cbn [clients]. rewrite elem_of_send_each.
    unfold Map_delete. split.
    + intros (-> & _ & c & [Hv Hin]%list_elem_of_filter & Hopen).
      repeat split; [done|]. by exists c.
    + intros (-> & Hv & c & Hin & Hopen). repeat split; [done|].
      exists c. split; [|done]. by apply list_elem_of_filter.
  - intros e parsed. unfold on_message, handleMessage. cbn [clients].
    rewrite get_Map_delete_eq. by destruct parsed.
Qed.

(** *** The cleanup interval *)

Lemma filter_ext_in {A : Type} (P Q : A → Prop) `{∀ x, Decision (P x)}
    `{∀ x, Decision (Q x)} (l : list A) :
  (∀ x, x ∈ l → P x ↔ Q x) → filter P l = filter Q l.
Proof.
  induction l as [|x l IH]; intros Hext; [done|].
  rewrite !filter_cons.
  assert (IH' : filter P l = filter Q l).
  { apply IH. intros y Hy. apply Hext. by right. }
  destruct (decide (P x)) as [HP|HP].
  - rewrite decide_True by (apply Hext; [left|done]). by rewrite IH'.
  - rewrite decide_False; [done|]. intros HQ. apply HP, Hext; [left|done].
Qed.

Lemma filter_all {A : Type} (P : A → Prop) `{∀ x, Decision (P x)}
    (l : list A) :
  (∀ x, P x) → filter P l = l.
Proof.
  intros HP. induction l as [|x l IH]; [done|].
  by rewrite filter_cons, decide_True, IH.
Qed.

Lemma Map_delete_keys_NoDup u m : NoDup m.*1 → NoDup (Map_delete u m).*1.
Proof.
  intros Hnd. eapply sublist_NoDup; [exact Hnd|].
  apply fmap_sublist, sublist_filter.
Qed.

(** The keys that the loop deletes: those of the stale entries. *)
Lemma sweep_loop_spec t (entries : registry) s :
  let s' := (sweep_loop JSON_stringify t entries s).1 in
  let sent := (sweep_loop JSON_stringify t entries s).2 in
  let evicted := (filter (λ kc, stale t kc.2) entries).*1 in
  clients s' = filter (λ kc, kc.1 ∉ evicted) (clients s) ∧
  operations s' = operations s ∧
  (∀ v d, (v, d) ∈ sent →
     ∃ u cu cv, d = JSON_stringify (JObj (user_left_message u)) ∧
                (u, cu) ∈ entries ∧ stale t cu ∧ v ≠ u ∧
                (v, cv) ∈ clients s ∧ ws cv = OPEN) ∧
  (∀ v c, NoDup (clients s).*1 → (v, c) ∈ clients s → v ∉ evicted →
          ws c = OPEN →
          filter (λ d : delivery, d.1 = v) sent
          = (λ u, (v, JSON_stringify (JObj (user_left_message u))))
            <$> evicted).
Proof.
  cbv zeta. revert s. induction entries as [|[u cu] rest IH]; intros s.
  { simpl. split; [|split; [done|split]].
    - symmetry. apply filter_all. intros kc. apply not_elem_of_nil.
    - by intros v d ?%elem_of_nil.
    - done. }
  cbn [sweep_loop]. destruct (decide (stale t cu)) as [Hst|Hst].
  - assert (Hev : (filter (λ kc, stale t kc.2) ((u, cu) :: rest)).*1
                  = u :: (filter (λ kc, stale t kc.2) rest).*1)
      by (by rewrite filter_cons, decide_True).
    rewrite Hev. clear Hev.
    set (s1 := {| clients := Map_delete u (clients s);
                  operations := operations s |}).
    destruct (IH s1) as (Hcl & Hops & Hsent & Hcount).
    destruct (sweep_loop JSON_stringify t rest s1) as [s2 sent2].
    cbn [fst snd] in *. subst s1. cbn [clients operations] in *.
    split; [|split; [done|split]].
    + rewrite Hcl. unfold Map_delete. rewrite list_filter_filter.
      apply list_filter_iff. intros [k c]. cbn [fst snd].
      rewrite not_elem_of_cons. tauto.
    + intros v d [Hin|Hin]%elem_of_app.
      * unfold broadcast in Hin. cbn [clients] in Hin.
        apply elem_of_send_each in Hin as (-> & _ & cv & Hcv & Hopen).
        apply list_elem_of_filter in Hcv as [Hv Hcv].
        exists u, cu, cv. repeat split; [left|done..].
      * destruct (Hsent v d Hin) as (u' & cu' & cv & -> & ? & ? & ? & Hcv & ?).
        apply list_elem_of_filter in Hcv as [_ Hcv].
        exists u', cu', cv. repeat split; [by right|done..].
    + intros v c Hnd Hin [Hv Hrest]%not_elem_of_cons Hopen.
      assert (Hin1 : (v, c) ∈ Map_delete u (clients s))
        by (by apply list_elem_of_filter).
      rewrite filter_app. unfold broadcast. cbn [clients].
      rewrite (filter_recipient_open _ _ v c);
        [|by apply Map_delete_keys_NoDup|done..].
      rewrite fmap_cons. cbn [app]. f_equal.
      apply (Hcount v c); [by apply Map_delete_keys_NoDup|done..].
  - assert (Hev : (filter (λ kc, stale t kc.2) ((u, cu) :: rest)).*1
                  = (filter (λ kc, stale t kc.2) rest).*1)
      by (by rewrite filter_cons, decide_False).
    rewrite Hev. clear Hev.
    destruct (IH s) as (Hcl & Hops & Hsent & Hcount).
    split; [done|]. split; [done|]. split; [|done].
    intros v d Hin.
    destruct (Hsent v d Hin) as (u' & cu' & cv & -> & ? & ? & ? & ? & ?).
    exists u', cu', cv. repeat split; [by right|done..].
Qed.

(** X16: the cleanup takes out of the registry exactly the connections that
    were last heard of more than 60000 ms ago and keeps the others in
    order; the log stays.  Every notice it sends is a [user-left] about an
    evicted connection, sent to a connection other than that one whose
    socket is open; and an open connection that survives receives one
    notice per evicted connection, in registry order. *)
Theorem sweep_evicts_exactly_the_stale t s :
  NoDup (clients s).*1 →
  let s' := (sweep JSON_stringify t s).1 in
  let sent := (sweep JSON_stringify t s).2 in
  let evicted := (filter (λ kc, stale t kc.2) (clients s)).*1 in
  clients s' = filter (λ kc, ¬ stale t kc.2) (clients s) ∧
  operations s' = operations s ∧
  (∀ v d, (v, d) ∈ sent →
     ∃ u cu cv, d = JSON_stringify (JObj (user_left_message u)) ∧
                (u, cu) ∈ clients s ∧ stale t cu ∧ v ≠ u ∧
                (v, cv) ∈ clients s ∧ ws cv = OPEN) ∧
  (∀ v c, (v, c) ∈ clients s' → ws c = OPEN →
          filter (λ d : delivery, d.1 = v) sent
          = (λ u, (v, JSON_stringify (JObj (user_left_message u))))
            <$> evicted).
Proof.
  intros Hnd. cbv zeta. unfold sweep.
  destruct (sweep_loop_spec t (clients s) s) as (Hcl & Hops & Hsent & Hcount).
  assert (Hkey : ∀ kc, kc ∈ clients s →
            kc.1 ∉ (filter (λ kc, stale t kc.2) (clients s)).*1
            ↔ ¬ stale t kc.2).
  { intros [k c] Hin. simpl. split.
    - intros Hno Hst. apply Hno.
      apply (list_elem_of_fmap_2 fst _ (k, c)). by apply list_elem_of_filter.
    - intros Hfresh ([k' c'] & -> & [Hst Hin']%list_elem_of_filter)%list_elem_of_fmap.
      simpl in *. apply Hfresh.
      apply (get_Some_elem_of _ _ _ Hnd) in Hin, Hin'. congruence. }
  assert (Hcl' : clients (sweep_loop JSON_stringify t (clients s) s).1
                 = filter (λ kc, ¬ stale t kc.2) (clients s)).
  { rewrite Hcl. by apply filter_ext_in. }
  split; [done|]. split; [done|]. split; [done|].
  intros v c Hin Hopen. rewrite Hcl' in Hin.
  apply list_elem_of_filter in Hin as [Hfresh Hin].
  apply (Hcount v c); [done..| |done].
  by apply (Hkey (v, c)).
Qed.

(** X17: a pong puts off the eviction: a registered connection whose pong
    was handled at time [t] is still registered, under the same entry with
    its last ping at [t], after any cleanup that runs no later than 60000
    ms after [t]. *)
Theorem pong_defers_eviction t t' u c s :
  NoDup (clients s).*1 →
  get u (clients s) = Some c →
  t' - t ≤ 60000 →
  get u (clients (sweep JSON_stringify t' (on_pong t u s)).1)
  = Some (set_lastPing t c).
Proof.
  intros Hnd Hget Hsoon.
  set (s1 := on_pong t u s).
  assert (Hs1 : clients s1 = update u (set_lastPing t) (clients s))
    by (unfold s1, on_pong; by rewrite Hget).
  assert (Hkeys : (clients s1).*1 = (clients s).*1).
  { rewrite Hs1, <- !sockets_keys. f_equal. by apply update_sockets. }
  assert (Hnd1 : NoDup (clients s1).*1) by (by rewrite Hkeys).
  assert (Hget1 : get u (clients s1) = Some (set_lastPing t c))
    by (rewrite Hs1; by apply get_update_eq).
  destruct (sweep_loop_spec t' (clients s1) s1) as (Hcl & _).
  unfold sweep. rewrite Hcl.
  apply (get_Some_elem_of _ _ _ Hnd1) in Hget1.
  apply get_Some_elem_of.
  { eapply sublist_NoDup; [exact Hnd1|]. apply fmap_sublist, sublist_filter. }
  apply list_elem_of_filter. split; [|done]. simpl.
  intros ([k' c'] & -> & [Hst Hin']%list_elem_of_filter)%list_elem_of_fmap.
  simpl in *.
  assert (c' = set_lastPing t c) as ->.
  { apply (get_Some_elem_of _ _ _ Hnd1) in Hget1, Hin'. congruence. }
  unfold stale in Hst. simpl in Hst. lia.
Qed.

End LifecycleFacts.

(** ** The transport over its whole life *)

Section TransportLifeFacts.
Import Transport.

Variable JSON_stringify : json → string.

Implicit Types (c : client) (ev : event) (tr : list event) (fuel : nat).

(** One event keeps the order of everything handed to [send]. *)
Lemma outbox_step fuel ev c :
  flushed c → (length (messageQueue c) ≤ fuel)%nat →
  ∃ c', step JSON_stringify fuel ev c = Some c' ∧ flushed c' ∧
        outbox JSON_stringify c'
        = outbox JSON_stringify c ++ (JSON_stringify <$> offered1 ev c) ∧
        (length (messageQueue c') ≤ length (messageQueue c) + length (sends [ev]))%nat.
Proof.
  intros Hfl Hfuel. unfold outbox, flushed. destruct ev; simpl.
  - destruct (processMessageQueue_open JSON_stringify fuel
                (set_backoff 0 (reconnectDelay (set_ws (Some OPEN) c))
                   (set_isConnected true (set_ws (Some OPEN) c))))
      as (c' & Hflush & Hs & Hq & _); [done|done|].
    exists c'. unfold onopen. rewrite Hflush. split; [done|].
    split; [done|]. rewrite Hs, Hq. simpl. split; [by rewrite !app_nil_r|lia].
  - eexists. split; [done|]. unfold onclose. simpl.
    case_decide; simpl; (split; [done|]); by rewrite !app_nil_r, Nat.add_0_r.
  - destruct (pending c); eexists; (split; [done|]); simpl;
      rewrite !app_nil_r, Nat.add_0_r; [by split|].
    split; [|done]. unfold connected. simpl. by rewrite andb_false_r.
  - eexists. split; [done|]. unfold send.
    destruct (connected c) eqn:Hconn; simpl.
    + rewrite (Hfl Hconn). simpl. split; [by unfold connected in *|].
      split; [by rewrite !app_nil_r|lia].
    + split; [unfold connected in *; simpl; congruence|].
      rewrite fmap_app, length_app, app_assoc. by split.
  - eexists. split; [done|]. rewrite !app_nil_r, Nat.add_0_r.
    unfold disconnect. destruct (ws c) as [r|] eqn:Hws; [|by split].
    simpl. split; [|done]. unfold connected. simpl.
    destruct r; simpl; by rewrite andb_false_r.
  - eexists. split; [done|]. unfold ping, send.
    destruct (connected c) eqn:Hconn; simpl.
    + rewrite (Hfl Hconn). simpl. split; [by unfold connected in *|].
      split; [by rewrite !app_nil_r|lia].
    + rewrite !app_nil_r, Nat.add_0_r. split; [congruence|done].
  - eexists. split; [done|]. simpl. by rewrite !app_nil_r, Nat.add_0_r.
Qed.

(** X18: nothing handed to the transport is lost, doubled or reordered, over
    any number of outages: after any run of events, what has been
    transmitted followed by what waits in the queue is what it was before
    followed by every message handed to [send] since, in the order of the
    calls.  The run starts with nothing waiting while connected, as after
    [constructor()]. *)
Theorem transport_keeps_every_message_in_order fuel tr c :
  flushed c →
  (length (messageQueue c) + length (sends tr) ≤ fuel)%nat →
  ∃ c', run JSON_stringify fuel tr c = Some c' ∧ flushed c' ∧
        outbox JSON_stringify c'
        = outbox JSON_stringify c
          ++ (JSON_stringify <$> offered JSON_stringify fuel tr c).
Proof.
  revert c. induction tr as [|ev tr IH]; intros c Hfl Hfuel.
  { exists c. simpl. by rewrite app_nil_r. }
  assert (Hsplit : length (sends (ev :: tr))
                   = (length (sends [ev]) + length (sends tr))%nat).
  { change (ev :: tr) with ([ev] ++ tr). unfold sends.
    by rewrite omap_app, length_app. }
  destruct (outbox_step fuel ev c Hfl) as (c1 & Hstep & Hfl1 & Hout1 & Hlen1);
    [lia|].
  destruct (IH c1 Hfl1) as (c2 & Hrun & Hfl2 & Hout2); [lia|].
  exists c2. simpl. rewrite Hstep. split; [done|]. split; [done|].
  by rewrite Hout2, Hout1, fmap_app, app_assoc.
Qed.

(** What waits is the tail end of what the application sent. *)
Lemma queue_step fuel ev c :
  flushed c → (length (messageQueue c) ≤ fuel)%nat →
  ∃ c', step JSON_stringify fuel ev c = Some c' ∧
        messageQueue c' `suffix_of` messageQueue c ++ sends [ev].
Proof.
  intros Hfl Hfuel. destruct ev; simpl.
  - destruct (processMessageQueue_open JSON_stringify fuel
                (set_backoff 0 (reconnectDelay (set_ws (Some OPEN) c))
                   (set_isConnected true (set_ws (Some OPEN) c))))
      as (c' & Hflush & _ & Hq & _); [done|done|].
    exists c'. unfold onopen. rewrite Hflush, Hq. split; [done|].
    apply suffix_nil.
  - eexists. split; [done|]. unfold onclose. simpl.
    case_decide; simpl; by rewrite app_nil_r.
  - destruct (pending c); eexists; (split; [done|]); simpl;
      by rewrite app_nil_r.
  - eexists. split; [done|]. unfold send.
    destruct (connected c) eqn:Hconn; simpl; [|done].
    rewrite (Hfl Hconn). apply suffix_nil.
  - eexists. split; [done|]. rewrite app_nil_r.
    unfold disconnect. by destruct (ws c).
  - eexists. split; [done|]. rewrite app_nil_r. unfold ping, send.
    by destruct (connected c).
  - eexists. split; [done|]. simpl. by rewrite app_nil_r.
Qed.

(** X19: what waits in the queue is at all times the most recent messages of
    the application, in order: the queue is a suffix of the messages given
    to [send(m)] by the application, so a ping is never queued and an old
    message never waits behind a newer one that was transmitted. *)
Theorem queue_is_recent_application_messages fuel tr c :
  flushed c →
  (length (messageQueue c) + length (sends tr) ≤ fuel)%nat →
  ∃ c', run JSON_stringify fuel tr c = Some c' ∧
        messageQueue c' `suffix_of` messageQueue c ++ sends tr.
Proof.
  revert c. induction tr as [|ev tr IH]; intros c Hfl Hfuel.
  { exists c. simpl. by rewrite app_nil_r. }
  assert (Hsplit : sends (ev :: tr) = sends [ev] ++ sends tr).
  { change (ev :: tr) with ([ev] ++ tr). unfold sends. by rewrite omap_app. }
  rewrite Hsplit, length_app in Hfuel.
  destruct (outbox_step fuel ev c Hfl) as (c1 & Hstep & Hfl1 & _ & Hlen1);
    [lia|].
  destruct (queue_step fuel ev c Hfl) as (c1' & Hstep' & Hsuf1); [lia|].
  assert (c1' = c1) as -> by congruence.
  destruct (IH c1 Hfl1) as (c2 & Hrun & Hsuf2); [lia|].
  exists c2. rewrite Hsplit, app_assoc. simpl run. rewrite Hstep.
  split; [done|]. etrans; [exact Hsuf2|]. by apply suffix_app.
Qed.

(** *** Reconnecting in an orderly way *)

Lemma send_frame m c :
  let c' := send JSON_stringify m c in
  ws c' = ws c ∧ reconnectAttempts c' = reconnectAttempts c ∧
  maxReconnectAttempts c' = maxReconnectAttempts c ∧
  reconnectDelay c' = reconnectDelay c ∧ pending c' = pending c ∧
  scheduled c' = scheduled c ∧ sockets c' = sockets c.
Proof. cbv zeta. unfold send. by destruct (connected c). Qed.

Lemma processMessageQueue_frame fuel c c' :
  processMessageQueue JSON_stringify fuel c = Some c' →
  ws c' = ws c ∧ reconnectAttempts c' = reconnectAttempts c ∧
  maxReconnectAttempts c' = maxReconnectAttempts c ∧
  reconnectDelay c' = reconnectDelay c ∧ pending c' = pending c ∧
  scheduled c' = scheduled c ∧ sockets c' = sockets c.
Proof.
  revert c. induction fuel as [|fuel IH]; intros c; simpl.
  - destruct (messageQueue c); [by intros [= ->]|done].
  - destruct (messageQueue c) as [|m q]; [by intros [= ->]|].
    intros (-> & -> & -> & -> & -> & -> & ->)%IH.
    apply (send_frame m (set_messageQueue q c)).
Qed.

Lemma orderly_step fuel ev c c' :
  orderly c → enabled ev c →
  step JSON_stringify fuel ev c = Some c' →
  orderly c' ∧ maxReconnectAttempts c' = maxReconnectAttempts c.
Proof.
  unfold orderly. intros (Hatt & Hpend & Hwait) Hen.
  assert (Hidle : ws c ≠ Some CLOSED → pending c = 0%nat).
  { intros Hws. destruct (decide (pending c = 1%nat)) as [H1|]; [|lia].
    by destruct (Hwait H1). }
  destruct ev; simpl in *.
  - unfold onopen.
    intros (Hws & -> & -> & _ & -> & _)%processMessageQueue_frame.
    simpl. rewrite Hidle by congruence.
    split; [|done]. split; [lia|]. split; [lia|]. intros [=].
  - intros [= <-]. unfold onclose. simpl.
    assert (Hp : pending c = 0%nat)
      by (apply Hidle; destruct Hen as [?|[?|?]]; congruence).
    case_decide; simpl; rewrite Hp.
    + split; [|done]. split; [done|]. split; [lia|]. by intros _.
    + split; [|done]. split; [done|]. split; [lia|]. intros [=].
  - destruct (pending c) as [|p] eqn:Hp; [lia|]. intros [= <-]. simpl.
    assert (p = 0%nat) as -> by lia. destruct Hwait as [_ ?]; [done|].
    split; [|done]. split; [lia|]. split; [lia|]. intros [=].
  - intros [= <-].
    destruct (send_frame m c) as (-> & -> & -> & _ & -> & _). done.
  - intros [= <-]. unfold disconnect.
    destruct (ws c) as [r|] eqn:Hws; simpl; [|by rewrite Hws].
    split; [|done]. split; [done|]. split; [done|].
    intros H1. destruct (Hwait H1) as [[= ->] ?]. done.
  - intros [= <-]. unfold ping. destruct (connected c); [|done].
    edestruct send_frame as (-> & -> & -> & _ & -> & _). done.
  - intros [= <-]. done.
Qed.

(** X20: under the life cycle of browser sockets, a transport that starts in
    order stays in order: the attempts never exceed [maxReconnectAttempts],
    at most one reconnect timer waits at a time, and it waits only while
    the socket is closed and attempts are left; so no two sockets of the
    transport are ever alive together. *)
Theorem reconnects_stay_orderly fuel tr c c' :
  orderly c →
  feasible JSON_stringify fuel tr c →
  run JSON_stringify fuel tr c = Some c' →
  orderly c' ∧ maxReconnectAttempts c' = maxReconnectAttempts c.
Proof.
  revert c. induction tr as [|ev tr IH]; intros c Hc Hfeas; simpl.
  { by intros [= <-]. }
  simpl in Hfeas. destruct Hfeas as [Hen Hfeas].
  destruct (step JSON_stringify fuel ev c) as [c1|] eqn:Hstep; [|done].
  destruct (orderly_step fuel ev c c1 Hc Hen Hstep) as [Hc1 Hmax1].
  intros Hrun. destruct (IH c1 Hc1 Hfeas Hrun) as [? ?].
  split; [done|congruence].
Qed.

(** *** The delay *)

Lemma delay_step fuel ev c c' :
  (0 <= reconnectDelay c)%Q →
  step JSON_stringify fuel ev c = Some c' →
  (reconnectDelay c <= reconnectDelay c')%Q.
Proof.
  intros Hpos. destruct ev; simpl.
  - unfold onopen. intros (_ & _ & _ & -> & _)%processMessageQueue_frame.
    simpl. apply Qle_refl.
  - intros [= <-]. unfold onclose. simpl. case_decide; apply Qle_refl.
  - destruct (pending c); intros [= <-]; simpl; [apply Qle_refl|].
    rewrite Qred_correct. lra.
  - intros [= <-]. destruct (send_frame m c) as (_ & _ & _ & -> & _).
    apply Qle_refl.
  - intros [= <-]. unfold disconnect. destruct (ws c); apply Qle_refl.
  - intros [= <-]. unfold ping. destruct (connected c); [|apply Qle_refl].
    edestruct send_frame as (_ & _ & _ & -> & _). apply Qle_refl.
  - intros [= <-]. apply Qle_refl.
Qed.

Lemma delay_run fuel tr c c' :
  (0 <= reconnectDelay c)%Q →
  run JSON_stringify fuel tr c = Some c' →
  (reconnectDelay c <= reconnectDelay c')%Q.
Proof.
  revert c. induction tr as [|ev tr IH]; intros c Hpos; simpl.
  { intros [= <-]. apply Qle_refl. }
  destruct (step JSON_stringify fuel ev c) as [c1|] eqn:Hstep; [|done].
  pose proof (delay_step fuel ev c c1 Hpos Hstep) as H1.
  intros Hrun. eapply Qle_trans; [exact H1|].
  apply IH; [|done]. eapply Qle_trans; [exact Hpos|exact H1].
Qed.

(** One event multiplies the delay by 3/2 when it is a timer that fires,
    and leaves it alone otherwise. *)
Lemma delay_step_exact fuel ev c c' :
  step JSON_stringify fuel ev c = Some c' →
  (reconnectDelay c'
   == reconnectDelay c * (3 # 2) ^ Z.of_nat (fired JSON_stringify fuel [ev] c))%Q.
Proof.
  assert (Hsame : ∀ d : Q, (d == d * (3 # 2) ^ Z.of_nat 0)%Q).
  { intros d. simpl. by rewrite Qmult_1_r. }
  intros Hstep. cbn [fired]. rewrite Hstep, Nat.add_0_r.
  destruct ev; simpl in Hstep.
  - unfold onopen in Hstep.
    apply processMessageQueue_frame in Hstep as (_ & _ & _ & -> & _).
    apply Hsame.
  - injection Hstep as <-. unfold onclose. simpl. case_decide; apply Hsame.
  - destruct (pending c) eqn:Hp; injection Hstep as <-.
    + rewrite decide_False by lia. apply Hsame.
    + rewrite decide_True by lia. simpl. rewrite Qred_correct. reflexivity.
  - injection Hstep as <-. destruct (send_frame m c) as (_ & _ & _ & -> & _).
    apply Hsame.
  - injection Hstep as <-. unfold disconnect. destruct (ws c); apply Hsame.
  - injection Hstep as <-. unfold ping. destruct (connected c); [|apply Hsame].
    edestruct send_frame as (_ & _ & _ & -> & _). apply Hsame.
  - injection Hstep as <-. apply Hsame.
Qed.

Lemma delay_run_exact fuel tr c c' :
  run JSON_stringify fuel tr c = Some c' →
  (reconnectDelay c'
   == reconnectDelay c * (3 # 2) ^ Z.of_nat (fired JSON_stringify fuel tr c))%Q.
Proof.
  revert c. induction tr as [|ev tr IH]; intros c.
  { intros [= <-]. simpl. by rewrite Qmult_1_r. }
  intros Hrun. cbn [run] in Hrun.
  destruct (step JSON_stringify fuel ev c) as [c1|] eqn:Hstep; [|done].
  rewrite (IH c1 Hrun), (delay_step_exact fuel ev c c1 Hstep).
  cbn [fired]. rewrite Hstep, Nat.add_0_r.
  set (n := match ev with
            | EvTimer => if decide (0 < pending c)%nat then 1%nat else 0%nat
            | _ => 0%nat
            end).
  rewrite <- Qmult_assoc, Nat2Z.inj_add.
  rewrite Qpower.Qpower_plus by discriminate. reflexivity.
Qed.

(** The delays of the backoff are binary64 values up to the 29th. *)
Lemma backoff_binary64 (n : nat) :
  (n ≤ 29)%nat → binary64 (1000 * (3 # 2) ^ Z.of_nat n).
Proof.
  intros Hn. exists (125 * 3 ^ Z.of_nat n), (3 - Z.of_nat n).
  do 30 (destruct n as [|n];
         [split; [by vm_compute|];
          split; [split; by vm_compute|by vm_compute]|]).
  lia.
Qed.

(** X21: the delay is the delay the transport started with, multiplied by
    1.5 once for every reconnect timer that has fired; every other event,
    the opening of a socket included, leaves it alone, so it is never
    lowered.  This is about the first 29 timers after the delay 1000 of the
    constructor ([k] have fired before the run): up to there every delay is
    a binary64 value, so that the multiplication of the source does not
    round. *)
Theorem delay_is_base_times_power_of_timers fuel tr c c' (k : nat) :
  (reconnectDelay c == 1000 * (3 # 2) ^ Z.of_nat k)%Q →
  (k + fired JSON_stringify fuel tr c ≤ 29)%nat →
  run JSON_stringify fuel tr c = Some c' →
  (reconnectDelay c'
   == reconnectDelay c * (3 # 2) ^ Z.of_nat (fired JSON_stringify fuel tr c))%Q ∧
  (reconnectDelay c'
   == 1000 * (3 # 2) ^ Z.of_nat (k + fired JSON_stringify fuel tr c))%Q ∧
  binary64 (reconnectDelay c') ∧
  (reconnectDelay c <= reconnectDelay c')%Q.
Proof.
  intros Hc Hk Hrun.
  pose proof (delay_run_exact fuel tr c c' Hrun) as Hexact.
  assert (Hpow : (reconnectDelay c'
                  == 1000 * (3 # 2)
                            ^ Z.of_nat (k + fired JSON_stringify fuel tr c))%Q).
  { rewrite Hexact, Hc, Nat2Z.inj_add, Qpower.Qpower_plus by discriminate.
    by rewrite Qmult_assoc. }
  split; [exact Hexact|]. split; [exact Hpow|]. split.
  - destruct (backoff_binary64 _ Hk) as (m & e & Hm & He & Heq).
    exists m, e. split; [done|]. split; [done|]. by rewrite Hpow.
  - apply (delay_run fuel tr); [|done]. rewrite Hc.
    apply Qmult_le_0_compat; [discriminate|].
    apply Qpower.Qpower_0_le. discriminate.
Qed.

End TransportLifeFacts.

(** ** The properties above at sample inputs *)

Section ServerSamples.
Import Server.


Lemma unusable_input_is_dropped_witness :
  (Some (JObj (<["type" := JStr "resize"]> ∅)) = None ∨
   Some (JObj (<["type" := JStr "resize"]> ∅)) = Some JNull ∨
   get "user_a" (clients sample_state) = None ∨
   (∃ message ty,
      Some (JObj (<["type" := JStr "resize"]> ∅)) = Some message ∧
      prop "type" message = Some ty ∧ recognised ty = false)) ∧
  on_message (λ _, "{}") sample_env "user_a"
    (Some (JObj (<["type" := JStr "resize"]> ∅))) sample_state
  = (sample_state, []).
Proof.
  assert (H : Some (JObj (<["type" := JStr "resize"]> ∅)) = None ∨
              Some (JObj (<["type" := JStr "resize"]> ∅)) = Some JNull ∨
              get "user_a" (clients sample_state) = None ∨
              (∃ message ty,
                 Some (JObj (<["type" := JStr "resize"]> ∅)) = Some message ∧
                 prop "type" message = Some ty ∧ recognised ty = false)).
  { right. right. right. eexists _, _. split; [reflexivity|].
    split; reflexivity. }
  split; [exact H|].
  exact (unusable_input_is_dropped (λ _, "{}") sample_env "user_a" _
           sample_state H).
Defined.

Lemma cursor_updates_sender_only_witness :
  let d := JObj (<["x" := JNum 10]> (<["y" := JNum 20]> ∅)) in
  get "user_a" (clients sample_state) = Some (sample_client "user_a" OPEN) ∧
  ∃ s',
    handleMessage (λ _, "{}") sample_env "user_a" (cursor_message d)
      sample_state
    = Some (s',
            send_each
              ((λ _, "{}")
                 (JObj (<["data" := d]>
                       (<["type" := JStr "cursor"]>
                       (<["userId" := JStr "user_a"]> ∅)))))
              (Some "user_a") (clients sample_state)) ∧
    operations s' = operations sample_state ∧
    get "user_a" (clients s')
    = Some (set_cursor (Some d) (sample_client "user_a" OPEN)) ∧
    ∀ v, v ≠ "user_a" → get v (clients s') = get v (clients sample_state).
Proof.
  intros d.
  assert (Hget : get "user_a" (clients sample_state)
                 = Some (sample_client "user_a" OPEN)) by reflexivity.
  split; [exact Hget|].
  exact (cursor_updates_sender_only (λ _, "{}") sample_env "user_a" d
           sample_state _ Hget).
Defined.

Lemma clear_appends_bare_operation_witness :
  let message : obj :=
    <["type" := JStr "clear"]> (<["userId" := JStr "user_b"]> ∅) in
  let clearOp : obj :=
    <["type" := JStr "clear"]>
    (<["userId" := JStr "user_a"]>
    (<["timestamp" := JNum (now sample_env)]>
    (<["operationId" := JStr (generateOperationId sample_env)]> ∅))) in
  get "user_a" (clients sample_state) = Some (sample_client "user_a" OPEN) ∧
  message !! "type" = Some (JStr "clear") ∧
  handleMessage (λ _, "{}") sample_env "user_a" (JObj message) sample_state
  = Some ({| clients := clients sample_state;
             operations := operations sample_state ++ [clearOp] |},
          send_each
            ((λ _, "{}") (JObj (<["type" := JStr "clear"]>
                               (<["data" := JObj clearOp]> ∅))))
            (Some "user_a") (clients sample_state)).
Proof.
  intros message clearOp.
  assert (Hget : get "user_a" (clients sample_state)
                 = Some (sample_client "user_a" OPEN)) by reflexivity.
  assert (Hty : message !! "type" = Some (JStr "clear")) by reflexivity.
  split; [exact Hget|]. split; [exact Hty|].
  exact (clear_appends_bare_operation (λ _, "{}") sample_env "user_a" message
           sample_state _ Hget Hty).
Defined.

Lemma server_undo_marks_last_entry_witness :
  authored "user_a" sample_state ∧
  ∃ i (target undoOp : obj),
    handleUndo (λ _, "{}") sample_env "user_a" sample_state
    = ({| clients := clients sample_state;
          operations := operations sample_state ++ [undoOp] |},
       send_each
         ((λ _, "{}") (JObj (<["type" := JStr "undo"]>
                            (<["data" := JObj undoOp]> ∅))))
         None (clients sample_state)) ∧
    operations sample_state !! i = Some target ∧
    is_string "user_a" (target !! "userId") = true ∧
    (∀ j o, (i < j)%nat → operations sample_state !! j = Some o →
            is_string "user_a" (o !! "userId") = false) ∧
    undoOp !! "targetOperationId" = target !! "operationId" ∧
    undoOp !! "type" = Some (JStr "undo") ∧
    undoOp !! "userId" = Some (JStr "user_a") ∧
    undoOp !! "operationId" = Some (JStr (generateOperationId sample_env)).
Proof.
  assert (Hauth : authored "user_a" sample_state)
    by (apply (bool_decide_unpack _); vm_compute; exact I).
  split; [exact Hauth|].
  exact (server_undo_marks_last_entry (λ _, "{}") sample_env "user_a"
           sample_state Hauth).
Defined.

Lemma second_undo_targets_first_marker_witness :
  let e2 := {| now := 1800; idNow := 1801; rnd := "zzzzzzzzz" |} in
  let s1 := (handleUndo (λ _, "{}") sample_env "user_a" sample_state).1 in
  let s2 := (handleUndo (λ _, "{}") e2 "user_a" s1).1 in
  authored "user_a" sample_state ∧
  ∃ first second : obj,
    operations s2 = operations sample_state ++ [first; second] ∧
    first !! "operationId" = Some (JStr (generateOperationId sample_env)) ∧
    second !! "targetOperationId"
    = Some (JStr (generateOperationId sample_env)) ∧
    second !! "operationId" = Some (JStr (generateOperationId e2)).
Proof.
  intros e2 s1 s2.
  assert (Hauth : authored "user_a" sample_state)
    by (apply (bool_decide_unpack _); vm_compute; exact I).
  split; [exact Hauth|].
  exact (second_undo_targets_first_marker (λ _, "{}") sample_env e2 "user_a"
           sample_state Hauth).
Defined.

Lemma sweep_evicts_exactly_the_stale_witness :
  let s := (on_pong 50000 "user_b" sample_state) in
  let s' := (sweep (λ _, "{}") 70000 s).1 in
  let sent := (sweep (λ _, "{}") 70000 s).2 in
  let evicted := (filter (λ kc, stale 70000 kc.2) (clients s)).*1 in
  NoDup (clients s).*1 ∧
  evicted = ["user_a"; "user_c"] ∧
  clients s' = filter (λ kc, ¬ stale 70000 kc.2) (clients s) ∧
  operations s' = operations s ∧
  (∀ v d, (v, d) ∈ sent →
     ∃ u cu cv, d = (λ _, "{}") (JObj (user_left_message u)) ∧
                (u, cu) ∈ clients s ∧ stale 70000 cu ∧ v ≠ u ∧
                (v, cv) ∈ clients s ∧ ws cv = OPEN) ∧
  (∀ v c, (v, c) ∈ clients s' → ws c = OPEN →
          filter (λ d : delivery, d.1 = v) sent
          = (λ u, (v, (λ _, "{}") (JObj (user_left_message u))))
            <$> evicted).
Proof.
  intros s s' sent evicted.
  assert (Hnd : NoDup (clients s).*1)
    by (apply (bool_decide_unpack _); vm_compute; exact I).
  split; [exact Hnd|]. split; [reflexivity|].
  exact (sweep_evicts_exactly_the_stale (λ _, "{}") 70000 s Hnd).
Defined.

Lemma pong_defers_eviction_witness :
  NoDup (clients sample_state).*1 ∧
  get "user_b" (clients sample_state) = Some (sample_client "user_b" OPEN) ∧
  70000 - 50000 ≤ 60000 ∧
  get "user_b"
    (clients (sweep (λ _, "{}") 70000
                (on_pong 50000 "user_b" sample_state)).1)
  = Some (set_lastPing 50000 (sample_client "user_b" OPEN)).
Proof.
  assert (Hnd : NoDup (clients sample_state).*1)
    by (apply (bool_decide_unpack _); vm_compute; exact I).
  assert (Hget : get "user_b" (clients sample_state)
                 = Some (sample_client "user_b" OPEN)) by reflexivity.
  assert (Hsoon : 70000 - 50000 ≤ 60000) by lia.
  split; [exact Hnd|]. split; [exact Hget|]. split; [exact Hsoon|].
  exact (pong_defers_eviction (λ _, "{}") 50000 70000 "user_b" _ sample_state
           Hnd Hget Hsoon).
Defined.

End ServerSamples.

Section TransportSamples.
Import Transport.

Lemma transport_keeps_every_message_in_order_witness :
  let tr := [EvSend (JStr "a"); EvOpen; EvSend (JStr "b"); EvPing 7; EvClose;
             EvSend (JStr "c"); EvTimer; EvOpen] in
  let c := connect constructor in
  flushed c ∧
  (length (messageQueue c) + length (sends tr) ≤ 3)%nat ∧
  offered (λ _, "{}") 3 tr c
  = [JStr "a"; JStr "b"; ping_message 7; JStr "c"] ∧
  ∃ c', run (λ _, "{}") 3 tr c = Some c' ∧ flushed c' ∧
        outbox (λ _, "{}") c'
        = outbox (λ _, "{}") c
          ++ ((λ _, "{}") <$> offered (λ _, "{}") 3 tr c).
Proof.
  intros tr c.
  assert (Hfl : flushed c) by (intros Hc; discriminate Hc).
  assert (Hfuel : (length (messageQueue c) + length (sends tr) ≤ 3)%nat)
    by (vm_compute; lia).
  split; [exact Hfl|]. split; [exact Hfuel|]. split; [reflexivity|].
  exact (transport_keeps_every_message_in_order (λ _, "{}") 3 tr c Hfl Hfuel).
Defined.

Lemma queue_is_recent_application_messages_witness :
  let tr := [EvSend (JStr "a"); EvOpen; EvSend (JStr "b"); EvPing 7; EvClose;
             EvPing 8; EvSend (JStr "c")] in
  let c := connect constructor in
  flushed c ∧
  (length (messageQueue c) + length (sends tr) ≤ 3)%nat ∧
  ∃ c', run (λ _, "{}") 3 tr c = Some c' ∧
        messageQueue c' `suffix_of` messageQueue c ++ sends tr.
Proof.
  intros tr c.
  assert (Hfl : flushed c) by (intros Hc; discriminate Hc).
  assert (Hfuel : (length (messageQueue c) + length (sends tr) ≤ 3)%nat)
    by (vm_compute; lia).
  split; [exact Hfl|]. split; [exact Hfuel|].
  exact (queue_is_recent_application_messages (λ _, "{}") 3 tr c Hfl Hfuel).
Defined.

Lemma reconnects_stay_orderly_witness :
  let tr := [EvOpen; EvSend (JStr "a"); EvClose; EvTimer; EvClose; EvTimer;
             EvDisconnect; EvClose] in
  let c := connect constructor in
  let c' := set_timers [1000; 1500; 2250]%Q 1
              (set_backoff 2 2250%Q
                 (set_sent ["{}"]
                    (set_sockets 3 (set_ws (Some CLOSED) constructor)))) in
  orderly c ∧
  feasible (λ _, "{}") 0 tr c ∧
  run (λ _, "{}") 0 tr c = Some c' ∧
  orderly c' ∧ maxReconnectAttempts c' = maxReconnectAttempts c.
Proof.
  intros tr c c'.
  assert (Hc : orderly c).
  { split; [vm_compute; lia|]. split; [vm_compute; lia|].
    intros H1; discriminate H1. }
  assert (Hfeas : feasible (λ _, "{}") 0 tr c).
  { vm_compute. repeat split; auto; lia. }
  assert (Hrun : run (λ _, "{}") 0 tr c = Some c')
    by (vm_compute; reflexivity).
  split; [exact Hc|]. split; [exact Hfeas|]. split; [exact Hrun|].
  exact (reconnects_stay_orderly (λ _, "{}") 0 tr c c' Hc Hfeas Hrun).
Defined.

Lemma delay_is_base_times_power_of_timers_witness :
  let tr := [EvClose; EvTimer; EvOpen; EvTimer; EvClose; EvTimer; EvOpen] in
  let c := connect constructor in
  let c' := set_timers [1000; 1500]%Q 0
              (set_backoff 0 2250%Q
                 (set_isConnected true
                    (set_sockets 3 (set_ws (Some OPEN) constructor)))) in
  (reconnectDelay c == 1000 * (3 # 2) ^ Z.of_nat 0)%Q ∧
  (0 + fired (λ _, "{}") 0 tr c ≤ 29)%nat ∧
  run (λ _, "{}") 0 tr c = Some c' ∧
  (reconnectDelay c'
   == reconnectDelay c * (3 # 2) ^ Z.of_nat (fired (λ _, "{}") 0 tr c))%Q ∧
  (reconnectDelay c'
   == 1000 * (3 # 2) ^ Z.of_nat (0 + fired (λ _, "{}") 0 tr c))%Q ∧
  binary64 (reconnectDelay c') ∧
  (reconnectDelay c <= reconnectDelay c')%Q.
Proof.
  intros tr c c'.
  assert (Hc : (reconnectDelay c == 1000 * (3 # 2) ^ Z.of_nat 0)%Q)
    by (vm_compute; reflexivity).
  assert (Hk : (0 + fired (λ _, "{}") 0 tr c ≤ 29)%nat)
    by (vm_compute; lia).
  assert (Hrun : run (λ _, "{}") 0 tr c = Some c')
    by (vm_compute; reflexivity).
  split; [exact Hc|]. split; [exact Hk|]. split; [exact Hrun|].
  exact (delay_is_base_times_power_of_timers (λ _, "{}") 0 tr c c' 0
           Hc Hk Hrun).
Defined.

End TransportSamples.

(** ** The application's own history *)

Section AppFacts.
Import App.

Variable JSON_stringify : json → string.

Implicit Types (a : state) (ops : list stroke) (p q : point)
  (ps : list point).

Lemma pop_snoc {A : Type} (l : list A) (x : A) : pop (l ++ [x]) = Some (x, l).
Proof. unfold pop. by rewrite reverse_snoc, reverse_involutive. Qed.

Lemma last_snoc {A : Type} (l : list A) :
  l ≠ [] → ∃ l0 x, l = l0 ++ [x].
Proof. destruct l using rev_ind; [done|]. intros _. by eexists _, _. Qed.

Lemma slice_last_two {A : Type} (l : list A) (x y : A) :
  slice_last 2 (l ++ [x; y]) = [x; y].
Proof.
  unfold slice_last. rewrite length_app. simpl.
  replace (length l + 2 - 2)%nat with (length l) by lia.
  by rewrite drop_app_length.
Qed.

Lemma drawAll_painted ops (c : Canvas.DrawingCanvas) :
  Canvas.painted (drawAll ops c) = Canvas.painted c ++ repaint ops ∧
  Canvas.currentPath (drawAll ops c) = Canvas.currentPath c ∧
  Canvas.isDrawing (drawAll ops c) = Canvas.isDrawing c.
Proof.
  revert c. induction ops as [|op ops IH]; intros c.
  { simpl. by rewrite app_nil_r. }
  change (drawAll (op :: ops) c)
    with (drawAll ops (Canvas.drawPath (Some (points op)) (color op)
                         (width op) (tool op) c)).
  destruct (IH (Canvas.drawPath (Some (points op))
    (color op) (width op) (tool op) c)) as (-> & -> & ->).
  unfold repaint, Canvas.drawPath. cbn [omap list_omap].
  case_decide; simpl; [done|].
  by rewrite <- app_assoc.
Qed.

(** X22: an undo followed by a redo puts both local histories back as they
    were.  On the way the canvas is cleared and the whole history is
    painted again in order, entries with fewer than two points left out;
    and the server is told of the undo but never of the redo. *)
Theorem undo_then_redo_restores_history a :
  operationHistory a ≠ [] →
  let a' := redo (undo JSON_stringify a) in
  operationHistory a' = operationHistory a ∧
  redoHistory a' = redoHistory a ∧
  wsClient a' = Transport.send JSON_stringify undo_message (wsClient a) ∧
  Canvas.painted (canvas a')
  = Canvas.painted (canvas a) ++ Canvas.Cleared :: repaint (operationHistory a).
Proof.
  intros Hne. cbv zeta.
  destruct (last_snoc (operationHistory a) Hne) as (l0 & x0 & Hhist).
  unfold undo. rewrite Hhist, pop_snoc. unfold redo. simpl.
  rewrite pop_snoc. simpl. repeat split.
  destruct (drawAll_painted l0 (Canvas.clear (canvas a))) as (Hp & _ & _).
  unfold repaint. rewrite omap_app. fold (repaint l0). simpl.
  unfold Canvas.drawPath. case_decide; simpl.
  - rewrite Hp. simpl. by rewrite app_nil_r, <- app_assoc.
  - rewrite Hp. simpl. by rewrite <- !app_assoc.
Qed.

(** X23: a stroke is recorded when the button goes up, and only once: the
    handler runs on [mouseup] and again on [mouseleave], and the second
    run changes nothing. *)
Theorem stopDrawing_twice_is_once t t' a :
  stopDrawing t' (stopDrawing t a) = stopDrawing t a.
Proof.
  unfold stopDrawing. destruct (isDrawing a) eqn:Hd; [|by rewrite Hd].
  simpl. by case_decide.
Qed.

(** The state in the middle of a stroke. *)
Lemma moves_spec p ps a :
  currentTool a ≠ "clear" →
  let a' := foldl (λ a q, draw JSON_stringify q a)
              (startDrawing JSON_stringify p a) ps in
  isDrawing a' = true ∧
  Canvas.isDrawing (canvas a') = true ∧
  Canvas.currentPath (canvas a') = p :: ps ∧
  currentTool a' = currentTool a ∧ currentColor a' = currentColor a ∧
  brushSize a' = brushSize a ∧
  operationHistory a' = operationHistory a ∧
  redoHistory a' = redoHistory a ∧
  ∃ pre prev, p :: ps = pre ++ [prev] ∧
    wsClient a'
    = send_all JSON_stringify
        (cursor_message p
         :: move_messages (currentColor a) (brushSize a) (currentTool a) p ps)
        (wsClient a).
Proof.
  intros Htool. cbv zeta.
  induction ps as [|q ps IH] using rev_ind.
  - simpl. unfold startDrawing. rewrite decide_False by done. simpl.
    repeat split. by exists [], p.
  - rewrite foldl_app. simpl.
    destruct IH as (Hd & Hcd & Hpath & Htl & Hcol & Hbr & Hh & Hr
                    & pre & prev & Hsplit & Hws).
    set (a1 := foldl (λ a q, draw JSON_stringify q a)
                 (startDrawing JSON_stringify p a) ps) in *.
    clearbody a1. unfold draw. rewrite Hd. unfold Canvas.draw. rewrite Hcd.
    cbn [canvas set_canvas Canvas.getCurrentPath Canvas.currentPath
         currentColor brushSize currentTool].
    rewrite Hpath.
    assert (Hlast : slice_last 2 ((p :: ps) ++ [q]) = [prev; q]).
    { rewrite Hsplit, <- app_assoc. apply slice_last_two. }
    rewrite Hlast. clear Hlast.
    destruct (decide (0 < length ((p :: ps) ++ [q]))%nat) as [_|Hlen];
      [|rewrite length_app in Hlen; simpl in Hlen; lia].
    simpl. rewrite Htl, Hcol, Hbr, Hws.
    repeat split; [done..|].
    exists (p :: ps), q. split; [done|].
    assert (Hmoves : ∀ p0 l, ∃ z, p0 :: l = z.1 ++ [z.2] ∧
              move_messages (currentColor a) (brushSize a) (currentTool a)
                p0 (l ++ [q])
              = move_messages (currentColor a) (brushSize a) (currentTool a)
                  p0 l
                ++ [draw_message [z.2; q] (currentColor a) (brushSize a)
                      (currentTool a); cursor_message q]).
    { intros p0 l. revert p0. induction l as [|x l IHl]; intros p0.
      - by exists ([], p0).
      - destruct (IHl x) as ([z1 z2] & Hz & Heq). exists (p0 :: z1, z2).
        simpl in *. split; [by rewrite Hz|]. by rewrite Heq. }
    destruct (Hmoves p ps) as ([z1 z2] & Hz & ->). simpl in Hz.
    assert (z2 = prev) as ->.
    { rewrite Hsplit in Hz. by apply app_inj_tail in Hz as [_ ->]. }
    cbn [snd]. unfold send_all. by rewrite foldl_app.
Qed.

(** X24: a whole stroke, from the button going down at [p] over the moves
    [ps] to the button going up, is recorded as one history entry that
    holds all its points with the colour, width and tool in force, and it
    empties the redo history.  To the transport go the cursor at [p] and
    then, for every move, the segment from the previous point to the new
    one followed by the cursor: consecutive segments, each sent once. *)
Theorem stroke_is_recorded_and_sent_in_segments p ps t a :
  currentTool a ≠ "clear" →
  let a' := stroke_gesture JSON_stringify p ps t a in
  operationHistory a'
  = operationHistory a ++
    [{| points := p :: ps; color := currentColor a; width := brushSize a;
        tool := currentTool a; timestamp := t |}] ∧
  redoHistory a' = [] ∧
  isDrawing a' = false ∧
  wsClient a'
  = send_all JSON_stringify
      (cursor_message p
       :: move_messages (currentColor a) (brushSize a) (currentTool a) p ps)
      (wsClient a).
Proof.
  intros Htool. cbv zeta. unfold stroke_gesture.
  destruct (moves_spec p ps a Htool)
    as (Hd & Hcd & Hpath & Htl & Hcol & Hbr & Hh & Hr & _ & _ & _ & Hws).
  set (a1 := foldl (λ a q, draw JSON_stringify q a)
               (startDrawing JSON_stringify p a) ps) in *.
  clearbody a1. unfold stopDrawing. rewrite Hd. unfold Canvas.stopDrawing. rewrite Hcd.
  cbn [canvas set_canvas set_isDrawing Canvas.getCurrentPath
       Canvas.currentPath].
  rewrite Hpath. rewrite decide_True by (simpl; lia).
  cbn [operationHistory redoHistory isDrawing wsClient set_histories
       set_canvas set_isDrawing currentColor brushSize currentTool].
  by rewrite Hh, Hcol, Hbr, Htl, Hws.
Qed.

(** X25: a clear that comes from another participant wipes both local
    histories, so an undo or a redo after it does nothing and sends
    nothing; the user's own clear leaves the histories as they are, so an
    undo after it takes back the last stroke, tells the server, and paints
    the strokes before it again. *)
Theorem clear_remote_forgets_local_keeps a :
  undo JSON_stringify (handleRemoteClear a) = handleRemoteClear a ∧
  redo (handleRemoteClear a) = handleRemoteClear a ∧
  operationHistory (clearCanvas JSON_stringify a) = operationHistory a ∧
  redoHistory (clearCanvas JSON_stringify a) = redoHistory a ∧
  ∀ rest lastOp, operationHistory a = rest ++ [lastOp] →
    let a' := undo JSON_stringify (clearCanvas JSON_stringify a) in
    operationHistory a' = rest ∧
    redoHistory a' = redoHistory a ++ [lastOp] ∧
    wsClient a'
    = Transport.send JSON_stringify undo_message
        (Transport.send JSON_stringify clear_message (wsClient a)) ∧
    Canvas.painted (canvas a')
    = Canvas.painted (canvas a)
      ++ [Canvas.Cleared; Canvas.Cleared] ++ repaint rest.
Proof.
  split; [done|]. split; [done|]. split; [done|]. split; [done|].
  intros rest lastOp Hhist. cbv zeta. unfold undo, clearCanvas. simpl.
  rewrite Hhist, pop_snoc. simpl. repeat split.
  destruct (drawAll_painted rest
              (Canvas.clear (Canvas.clear (canvas a)))) as (-> & _ & _).
  simpl. by rewrite <- !app_assoc.
Qed.

End AppFacts.

Section AppSamples.
Import App.

Lemma undo_then_redo_restores_history_witness :
  let a' := redo (undo (λ _, "{}") sample_app) in
  operationHistory sample_app ≠ [] ∧
  operationHistory a' = operationHistory sample_app ∧
  redoHistory a' = redoHistory sample_app ∧
  wsClient a'
  = Transport.send (λ _, "{}") undo_message (wsClient sample_app) ∧
  Canvas.painted (canvas a')
  = Canvas.painted (canvas sample_app)
    ++ Canvas.Cleared :: repaint (operationHistory sample_app).
Proof.
  intros a'.
  assert (Hne : operationHistory sample_app ≠ []) by discriminate.
  split; [exact Hne|].
  exact (undo_then_redo_restores_history (λ _, "{}") sample_app Hne).
Defined.

Lemma stroke_is_recorded_and_sent_in_segments_witness :
  let a' := stroke_gesture (λ _, "{}") (0, 0) [(1, 1); (2, 3)] 99 sample_app in
  currentTool sample_app ≠ "clear" ∧
  operationHistory a'
  = operationHistory sample_app ++
    [{| points := [(0, 0); (1, 1); (2, 3)];
        color := currentColor sample_app; width := brushSize sample_app;
        tool := currentTool sample_app; timestamp := 99 |}] ∧
  redoHistory a' = [] ∧
  isDrawing a' = false ∧
  wsClient a'
  = send_all (λ _, "{}")
      (cursor_message (0, 0)
       :: move_messages (currentColor sample_app) (brushSize sample_app)
            (currentTool sample_app) (0, 0) [(1, 1); (2, 3)])
      (wsClient sample_app).
Proof.
  intros a'.
  assert (Htool : currentTool sample_app ≠ "clear") by discriminate.
  split; [exact Htool|].
  exact (stroke_is_recorded_and_sent_in_segments (λ _, "{}") (0, 0)
           [(1, 1); (2, 3)] 99 sample_app Htool).
Defined.

End AppSamples.
